(** * Model-merging utilities: a shallow embedding of [peft/utils/merge_utils.py]

    Tensors are modelled as a shape together with the row-major list of their
    elements.  Floating point numbers are modelled by exact rationals ([Q]);
    numeric equality of tensor elements is therefore [Qeq].  The primitives of
    the numeric library used by the module (broadcasting, reductions along the
    task axis, [topk], [view], ...) are modelled in [Module Torch]; the
    functions of the module itself keep their source names. *)

From Stdlib Require Import String Bool List Arith ZArith QArith Qabs Qround Lia.
From Stdlib Require Import Permutation Sorted Setoid Morphisms.
Import ListNotations.

Set Implicit Arguments.

Open Scope Q_scope.
Open Scope Z_scope.
Open Scope nat_scope.

(* ------------------------------------------------------------------ *)
(** ** Python exceptions and fallible results *)

Module Py.

(** The exception classes the module (or the numeric library under it)
    can raise. *)
Inductive exn : Set :=
| ValueError
| RuntimeError
| IndexError.

Inductive result (A : Type) : Type :=
| Ok (a : A)
| Raise (e : exn).

Arguments Ok {A} a.
Arguments Raise {A} e.

Definition bind {A B : Type} (r : result A) (k : A -> result B) : result B :=
  match r with
  | Ok a => k a
  | Raise e => Raise e
  end.

Definition rmap {A B : Type} (f : A -> B) (r : result A) : result B :=
  bind r (fun a => Ok (f a)).

(** [warnings.warn]: the only warning category used is the default one. *)
Inductive warning : Set :=
| UserWarning.

End Py.

Import Py.

Notation "x <- c1 ;; c2" := (bind c1 (fun x => c2))
  (at level 61, c1 at next level, right associativity).

(* ------------------------------------------------------------------ *)
(** ** The tensor primitives *)

Module Torch.

Record Tensor (A : Type) : Type := mkT { shape : list nat; data : list A }.

Arguments mkT {A} shape data.
Arguments shape {A} t.
Arguments data {A} t.

(** Number of elements announced by a shape. *)
Definition numel_of (s : list nat) : nat := fold_right Nat.mul 1 s.

Definition numel {A} (t : Tensor A) : nat := numel_of (shape t).
Definition dim {A} (t : Tensor A) : nat := length (shape t).

(** A tensor is well formed when it stores as many elements as its shape
    announces. *)
Definition wf {A} (t : Tensor A) : Prop := length (data t) = numel t.

(** *** Rational helpers *)

Definition Qltb (x y : Q) : bool := negb (Qle_bool y x).

(** [x.sign()]: -1, 0 or 1. *)
Definition Qsign (x : Q) : Q := inject_Z (Z.sgn (Qnum x)).

(** Boolean tensors promoted to numbers. *)
Definition b2q (b : bool) : Q := if b then 1%Q else 0%Q.

(** Python's [int(x)] on a float: truncation toward zero. *)
Definition py_int (x : Q) : Z := Z.quot (Qnum x) (Zpos (Qden x)).

Definition Qsum (l : list Q) : Q := fold_right Qplus 0%Q l.

(** *** Elementwise operations *)

Definition tmap {A B} (f : A -> B) (t : Tensor A) : Tensor B :=
  mkT (shape t) (map f (data t)).

Fixpoint zipWith {A B C} (f : A -> B -> C) (l1 : list A) (l2 : list B) : list C :=
  match l1, l2 with
  | x :: l1', y :: l2' => f x y :: zipWith f l1' l2'
  | _, _ => []
  end.

Definition full_like {A B} (t : Tensor A) (x : B) : Tensor B :=
  mkT (shape t) (repeat x (numel t)).

Definition zeros_like {A} (t : Tensor A) : Tensor Q := full_like t 0%Q.
Definition ones_like {A} (t : Tensor A) : Tensor Q := full_like t 1%Q.

(** *** Row-major blocks *)

(** [chunks n m l]: the first [n] consecutive blocks of [m] elements. *)
Fixpoint chunks {A} (n m : nat) (l : list A) : list (list A) :=
  match n with
  | O => []
  | S n' => firstn m l :: chunks n' m (skipn m l)
  end.

(** The sub-tensors along the leading axis, flattened. *)
Definition rows {A} (t : Tensor A) : list (list A) :=
  match shape t with
  | [] => [data t]
  | n :: s => chunks n (numel_of s) (data t)
  end.

(** Element [p] of the [i]-th sub-tensor along the leading axis. *)
Definition get {A} (d : A) (t : Tensor A) (i p : nat) : A :=
  nth p (nth i (rows t) []) d.

(** *** Broadcasting *)

Definition pad_shape (n : nat) (s : list nat) : list nat :=
  repeat 1 (n - length s) ++ s.

Fixpoint broadcast_aligned (s1 s2 : list nat) : option (list nat) :=
  match s1, s2 with
  | [], [] => Some []
  | d1 :: r1, d2 :: r2 =>
      match broadcast_aligned r1 r2 with
      | Some r =>
          if d1 =? d2 then Some (d1 :: r)
          else if d1 =? 1 then Some (d2 :: r)
          else if d2 =? 1 then Some (d1 :: r)
          else None
      | None => None
      end
  | _, _ => None
  end.

Definition broadcast_shapes (s1 s2 : list nat) : option (list nat) :=
  let n := Nat.max (length s1) (length s2) in
  broadcast_aligned (pad_shape n s1) (pad_shape n s2).

(** [expand from to d]: the elements of a tensor of shape [from] viewed at
    shape [to] (same rank, every axis of [from] equal to the one of [to] or
    of size 1, which is then repeated). *)
Fixpoint expand {A} (from to : list nat) (d : list A) : list A :=
  match from, to with
  | f :: from', t :: to' =>
      let parts := map (expand from' to') (chunks f (numel_of from') d) in
      if f =? t then concat parts else concat (repeat (concat parts) t)
  | _, _ => d
  end.

(** A binary elementwise operation with broadcasting; shapes that cannot be
    broadcast together raise. *)
Definition bop {A B C} (f : A -> B -> C) (a : Tensor A) (b : Tensor B)
  : result (Tensor C) :=
  match broadcast_shapes (shape a) (shape b) with
  | None => Raise RuntimeError
  | Some s =>
      let n := length s in
      Ok (mkT s (zipWith f (expand (pad_shape n (shape a)) s (data a))
                           (expand (pad_shape n (shape b)) s (data b))))
  end.

(** *** Shape manipulation *)

Definition view {A} (t : Tensor A) (s : list nat) : result (Tensor A) :=
  if numel_of s =? numel t then Ok (mkT s (data t)) else Raise RuntimeError.

(** [t.reshape(-1)] and [t.view(-1)]. *)
Definition flatten {A} (t : Tensor A) : Tensor A := mkT [numel t] (data t).

(** [t.unsqueeze(0)] and [t.unsqueeze(-1)]. *)
Definition unsqueeze0 {A} (t : Tensor A) : Tensor A := mkT (1 :: shape t) (data t).
Definition unsqueeze_last {A} (t : Tensor A) : Tensor A := mkT (shape t ++ [1]) (data t).

Definition all_shapes (s : list nat) {A} (ts : list (Tensor A)) : bool :=
  forallb (fun t => if list_eq_dec Nat.eq_dec (shape t) s then true else false) ts.

(** [torch.stack(ts, dim=0)]: needs a non-empty list of tensors of one
    shape. *)
Definition stack {A} (ts : list (Tensor A)) : result (Tensor A) :=
  match ts with
  | [] => Raise RuntimeError
  | t :: _ =>
      if all_shapes (shape t) ts
      then Ok (mkT (length ts :: shape t) (concat (map data ts)))
      else Raise RuntimeError
  end.

(** *** Reductions *)

Definition sum_rows (m : nat) (rs : list (list Q)) : list Q :=
  fold_right (zipWith Qplus) (repeat 0%Q m) rs.

(** [t.sum(dim=0)]; on a 0-dimensional tensor the sum is the tensor. *)
Definition sum_dim0 (t : Tensor Q) : Tensor Q :=
  match shape t with
  | [] => t
  | n :: s => mkT s (sum_rows (numel_of s) (chunks n (numel_of s) (data t)))
  end.

Definition Qmean (l : list Q) : Q := (Qsum l / inject_Z (Z.of_nat (length l)))%Q.

(** [torch.mean(t, dim=0)]. *)
Definition mean_dim0 (t : Tensor Q) : Tensor Q :=
  match shape t with
  | [] => t
  | n :: _ => tmap (fun x => (x / inject_Z (Z.of_nat n))%Q) (sum_dim0 t)
  end.

(** [torch.mean(t, dim=list(range(1, t.dim())))].  The list of axes is empty
    when [t] has rank 0 or 1, and the library then reduces over every
    axis. *)
Definition mean_tail (t : Tensor Q) : Tensor Q :=
  match shape t with
  | [] | [_] => mkT [] [Qmean (data t)]
  | n :: s => mkT [n] (map Qmean (chunks n (numel_of s) (data t)))
  end.

(** [torch.var(t, dim=0, unbiased=False)]: the population variance along the
    task axis. *)
Definition var_dim0 (t : Tensor Q) : Tensor Q :=
  match shape t with
  | [] => mkT [] [0%Q] (* not reached: the tensor is stacked *)
  | n :: s =>
      let rs := chunks n (numel_of s) (data t) in
      let mu := map (fun x => (x / inject_Z (Z.of_nat n))%Q) (sum_rows (numel_of s) rs) in
      let sq := map (fun r => zipWith (fun x m => ((x - m) * (x - m))%Q) r mu) rs in
      mkT s (map (fun x => (x / inject_Z (Z.of_nat n))%Q) (sum_rows (numel_of s) sq))
  end.

Definition nonzerob (x : Q) : bool := negb (Qeq_bool x 0%Q).

(** [torch.count_nonzero(t)]. *)
Definition count_nonzero (t : Tensor Q) : nat :=
  length (filter nonzerob (data t)).

(** [t.clamp(min=lo)]. *)
Definition clamp_min (lo : Q) (t : Tensor Q) : Tensor Q :=
  tmap (fun x => if Qltb x lo then lo else x) t.

(** *** Top-k selection *)

(** Insertion of index [i] in a list of indices sorted by decreasing value;
    among equal values the index inserted last comes first. *)
Fixpoint insert_desc (v : nat -> Q) (i : nat) (s : list nat) : list nat :=
  match s with
  | [] => [i]
  | j :: s' => if Qle_bool (v j) (v i) then i :: s else j :: insert_desc v i s'
  end.

(** The indices of [l] by decreasing value, equal values by increasing
    index. *)
Definition argsort_desc (l : list Q) : list nat :=
  fold_right (insert_desc (fun i => nth i l 0%Q)) [] (seq 0 (length l)).

(** [torch.topk(l, k, largest=True)] on a 1-dimensional tensor: the values
    and the indices of the [k] largest elements.  The library leaves the
    order among equal values open; the model takes the lowest index
    first. *)
Definition topk (l : list Q) (k : Z) : result (list Q * list nat) :=
  if (k <? 0)%Z || (Z.of_nat (length l) <? k)%Z then Raise RuntimeError
  else
    let idx := firstn (Z.to_nat k) (argsort_desc l) in
    Ok (map (fun i => nth i l 0%Q) idx, idx).

(** [mask[indices] = x]: assignment through a list of indices. *)
Fixpoint set_nth {A} (i : nat) (x : A) (l : list A) : list A :=
  match l, i with
  | [], _ => []
  | _ :: l', O => x :: l'
  | y :: l', S i' => y :: set_nth i' x l'
  end.

Definition index_put {A} (idx : list nat) (x : A) (l : list A) : list A :=
  fold_left (fun acc i => set_nth i x acc) idx l.

(** *** Random sampling *)

(** [torch.bernoulli(torch.full_like(t, p))]: one draw per element.  The
    random source is a function giving the uniform draw in [0,1) for each
    element; an element is kept when its draw is below [p].  Probabilities
    outside [0,1] are rejected. *)
Definition bernoulli {A} (u : nat -> Q) (t : Tensor A) (p : Q) : result (Tensor Q) :=
  if Qltb p 0%Q || Qltb 1%Q p then Raise RuntimeError
  else Ok (mkT (shape t) (map (fun i => b2q (Qltb (u i) p)) (seq 0 (numel t)))).

(** Numeric equality of tensors. *)
Definition teq (a b : Tensor Q) : Prop :=
  shape a = shape b /\ Forall2 Qeq (data a) (data b).

End Torch.

Import Torch.

(* ------------------------------------------------------------------ *)
(** ** The functions of [merge_utils.py]

    The diagnostic [print] calls and the [try]/[except]/[raise] wrappers of
    the [sce] functions print and re-raise; they change neither the value
    returned nor the exception raised, and are left out. *)

(** [weights.shape + (1,) * (task_tensors.dim() - weights.dim())]: a tuple
    repeated a negative number of times is empty, which is what the
    truncating subtraction of [nat] computes. *)
Definition reshape_weight_task_tensors {A} (task_tensors : Tensor A) (weights : Tensor Q)
  : result (Tensor Q) :=
  let new_shape := shape weights ++ repeat 1 (dim task_tensors - dim weights) in
  view weights new_shape.

Definition magnitude_based_pruning (tensor : Tensor Q) (density : Q) : result (Tensor Q) :=
  let mask := flatten (zeros_like tensor) in
  let k := py_int (density * inject_Z (Z.of_nat (numel tensor))) in
  top_k <- topk (data (flatten (tmap Qabs tensor))) k ;;
  let mask := mkT (shape mask) (index_put (snd top_k) 1%Q (data mask)) in
  mask <- view mask (shape tensor) ;;
  bop Qmult tensor mask.

(** [u] is the random source of [torch.bernoulli].  The quotient computed
    when [rescale] holds is bound to nothing and the tensor returned is the
    one computed before it. *)
Definition random_pruning (u : nat -> Q) (tensor : Tensor Q) (density : Q) (rescale : bool)
  : result (Tensor Q) :=
  mask <- bernoulli u tensor density ;;
  pruned_tensor <- bop Qmult tensor mask ;;
  if rescale then
    let _ := tmap (fun x => (x / density)%Q) pruned_tensor in
    Ok pruned_tensor
  else Ok pruned_tensor.

(** What the docstring of [random_pruning] describes for [rescale]: the
    quotient by [density] is the tensor returned. *)
Definition random_pruning_documented (u : nat -> Q) (tensor : Tensor Q) (density : Q)
  (rescale : bool) : result (Tensor Q) :=
  mask <- bernoulli u tensor density ;;
  pruned_tensor <- bop Qmult tensor mask ;;
  if rescale then Ok (tmap (fun x => (x / density)%Q) pruned_tensor)
  else Ok pruned_tensor.

(** [prune] returns the warnings it emitted together with its result. *)
Definition prune (u : nat -> Q) (tensor : Tensor Q) (density : Q) (method : string)
  (rescale : bool) : list warning * result (Tensor Q) :=
  if Qle_bool 1 density then ([UserWarning], Ok tensor)
  else if Qltb density 0 then ([], Raise ValueError)
  else if (method =? "magnitude")%string then ([], magnitude_based_pruning tensor density)
  else if (method =? "random")%string then ([], random_pruning u tensor density rescale)
  else ([], Raise ValueError).

(** [torch.where(x >= 0, 1, -1)] at one element. *)
Definition where_nonneg (x : Q) : Q := if Qle_bool 0 x then 1%Q else (-1)%Q.

Definition calculate_majority_sign_mask (tensor : Tensor Q) (method : string)
  : result (Tensor bool) :=
  let sign := tmap Qsign tensor in
  sign_magnitude <-
    (if (method =? "total")%string then Ok (sum_dim0 tensor)
     else if (method =? "frequency")%string then Ok (sum_dim0 sign)
     else Raise RuntimeError) ;;
  let majority_sign := tmap where_nonneg sign_magnitude in
  bop Qeq_bool sign majority_sign.

(** The per-position participant count of [disjoint_merge],
    [majority_sign_mask.sum(dim=0)]. *)
Definition num_params_preserved (majority_sign_mask : Tensor bool) : Tensor Q :=
  sum_dim0 (tmap b2q majority_sign_mask).

Definition disjoint_merge (task_tensors : Tensor Q) (majority_sign_mask : Tensor bool)
  : result (Tensor Q) :=
  masked <- bop Qmult task_tensors (tmap b2q majority_sign_mask) ;;
  let mixed_task_tensors := sum_dim0 masked in
  bop Qdiv mixed_task_tensors (clamp_min 1 (num_params_preserved majority_sign_mask)).

Definition task_arithmetic (task_tensors : list (Tensor Q)) (weights : Tensor Q)
  : result (Tensor Q) :=
  task_tensors <- stack task_tensors ;;
  weights <- reshape_weight_task_tensors task_tensors weights ;;
  weighted_task_tensors <- bop Qmult task_tensors weights ;;
  let mixed_task_tensors := sum_dim0 weighted_task_tensors in
  Ok mixed_task_tensors.

(** [1e-6]. *)
Definition eps : Q := 1 # 1000000.

Definition sce_weight (task_tensors : Tensor Q) : result (Tensor Q) :=
  let weights := mean_tail (tmap (fun x => (x ^ 2)%Q) task_tensors) in
  let weight_sum := Qsum (data weights) in
  if Qltb (Qabs weight_sum) eps then
    match shape weights with
    | [] => Raise IndexError
    | n :: _ => Ok (tmap (fun x => (x / inject_Z (Z.of_nat n))%Q) (ones_like weights))
    end
  else Ok (tmap (fun x => (x / weight_sum)%Q) weights).

Definition sce_mask (task_tensors : Tensor Q) (density : Q) : result (Tensor Q) :=
  if Qle_bool density 0 then Ok (zeros_like task_tensors)
  else if Qle_bool 1 density then Ok (ones_like task_tensors)
  else
    let var := var_dim0 task_tensors in
    let nonzero := count_nonzero var in
    let k := py_int (inject_Z (Z.of_nat nonzero) * density) in
    if (k =? 0)%Z then Ok (zeros_like task_tensors)
    else
      top <- topk (data (flatten (tmap Qabs var))) k ;;
      let mask := zeros_like var in
      Ok (mkT (shape mask) (index_put (snd top) 1%Q (data mask))).

(** [while t.dim() < n: t = t.unsqueeze(-1)]. *)
Definition unsqueeze_to {A} (n : nat) (t : Tensor A) : Tensor A :=
  Nat.iter (n - dim t) unsqueeze_last t.

Definition sce (task_tensors : list (Tensor Q)) (density : Q) (majority_sign_method : string)
  : result (Tensor Q) :=
  task_tensors <- stack task_tensors ;;
  task_tensors <-
    (if Qltb density 1 then
       mask <- sce_mask task_tensors density ;;
       bop Qmult task_tensors (unsqueeze0 mask)
     else Ok task_tensors) ;;
  erase_mask <- calculate_majority_sign_mask task_tensors majority_sign_method ;;
  tv_weights <- sce_weight task_tensors ;;
  let tv_weights := unsqueeze_to (dim task_tensors) tv_weights in
  erased_weights <- bop Qmult tv_weights (tmap b2q erase_mask) ;;
  weighted <- bop Qmult task_tensors erased_weights ;;
  let merged_tv := sum_dim0 weighted in
  let final_tv := bop Qdiv merged_tv (clamp_min eps (sum_dim0 erased_weights)) in
  final_tv.

(** Scaling every element of a tensor by a constant. *)
Definition tscale (c : Q) (t : Tensor Q) : Tensor Q := tmap (Qmult c) t.

(** The energy of each task: the mean of the squares of its elements. *)
Definition task_energies (t : Tensor Q) : list Q :=
  map (fun r => Qmean (map (fun x => (x ^ 2)%Q) r)) (rows t).

(** [clamp(min=1.0)] at one element. *)
Definition clamp1 (x : Q) : Q := if Qltb x 1 then 1%Q else x.

(** In a list of indices ordered by decreasing value, [i] may come before
    [j]: the value at [j] is not larger. *)
Definition before (v : nat -> Q) (i j : nat) : Prop := (v j <= v i)%Q.

(** Membership of an index in a list of indices. *)
Definition mem (i : nat) (idx : list nat) : bool := existsb (Nat.eqb i) idx.

(** The sum over the [n] tasks of a per-task quantity. *)
Definition task_sum (n : nat) (f : nat -> Q) : Q := Qsum (map f (seq 0 n)).

(** A quantity counted only for an element [x] that is not zero. *)
Definition nonzero_only (x v : Q) : Q := if Qeq_bool x 0 then 0%Q else v.

(** Numeric equality of results. *)
Definition req (r1 r2 : result (Tensor Q)) : Prop :=
  match r1, r2 with
  | Ok a, Ok b => teq a b
  | Raise e1, Raise e2 => e1 = e2
  | _, _ => False
  end.

(* ------------------------------------------------------------------ *)
(** ** The strategies that sparsify each task tensor first

    A computation that can warn before it returns or raises. *)

Definition warned (A : Type) : Type := (list warning * result A)%type.

Definition wbind {A B : Type} (c : warned A) (k : A -> warned B) : warned B :=
  match c with
  | (w, Ok a) => let (w', r) := k a in (w ++ w', r)
  | (w, Raise e) => (w, Raise e)
  end.

Definition quiet {A : Type} (r : result A) : warned A := ([], r).

(** [[prune(tensor, density, method, rescale) for tensor in task_tensors]]:
    the calls are made in order and the first one that raises ends the
    comprehension.  [us i] is the random source of the [i]-th call. *)
Fixpoint prune_each (us : nat -> nat -> Q) (i : nat) (task_tensors : list (Tensor Q))
  (density : Q) (method : string) (rescale : bool) : warned (list (Tensor Q)) :=
  match task_tensors with
  | [] => quiet (Ok [])
  | tensor :: rest =>
      wbind (prune (us i) tensor density method rescale) (fun pruned =>
      wbind (prune_each us (S i) rest density method rescale) (fun others =>
      quiet (Ok (pruned :: others))))
  end.

Definition magnitude_prune (us : nat -> nat -> Q) (task_tensors : list (Tensor Q))
  (weights : Tensor Q) (density : Q) : warned (Tensor Q) :=
  wbind (prune_each us 0 task_tensors density "magnitude" false) (fun task_tensors =>
  quiet (
    task_tensors <- stack task_tensors ;;
    weights <- reshape_weight_task_tensors task_tensors weights ;;
    weighted_task_tensors <- bop Qmult task_tensors weights ;;
    let mixed_task_tensors := sum_dim0 weighted_task_tensors in
    Ok mixed_task_tensors)).

Definition ties (us : nat -> nat -> Q) (task_tensors : list (Tensor Q))
  (weights : Tensor Q) (density : Q) (majority_sign_method : string)
  : warned (Tensor Q) :=
  wbind (prune_each us 0 task_tensors density "magnitude" false) (fun task_tensors =>
  quiet (
    task_tensors <- stack task_tensors ;;
    majority_sign_mask <- calculate_majority_sign_mask task_tensors majority_sign_method ;;
    weights <- reshape_weight_task_tensors task_tensors weights ;;
    weighted_task_tensors <- bop Qmult task_tensors weights ;;
    let mixed_task_tensors := disjoint_merge weighted_task_tensors majority_sign_mask in
    mixed_task_tensors)).

Definition dare_linear (us : nat -> nat -> Q) (task_tensors : list (Tensor Q))
  (weights : Tensor Q) (density : Q) : warned (Tensor Q) :=
  wbind (prune_each us 0 task_tensors density "random" true) (fun task_tensors =>
  quiet (
    task_tensors <- stack task_tensors ;;
    weights <- reshape_weight_task_tensors task_tensors weights ;;
    weighted_task_tensors <- bop Qmult task_tensors weights ;;
    let mixed_task_tensors := sum_dim0 weighted_task_tensors in
    Ok mixed_task_tensors)).

Definition dare_ties (us : nat -> nat -> Q) (task_tensors : list (Tensor Q))
  (weights : Tensor Q) (density : Q) (majority_sign_method : string)
  : warned (Tensor Q) :=
  wbind (prune_each us 0 task_tensors density "random" true) (fun task_tensors =>
  quiet (
    task_tensors <- stack task_tensors ;;
    majority_sign_mask <- calculate_majority_sign_mask task_tensors majority_sign_method ;;
    weights <- reshape_weight_task_tensors task_tensors weights ;;
    weighted_task_tensors <- bop Qmult task_tensors weights ;;
    let mixed_task_tensors := disjoint_merge weighted_task_tensors majority_sign_mask in
    mixed_task_tensors)).

(** The element of task [i] at flat position [p] in a list of task tensors. *)
Definition elem (ts : list (Tensor Q)) (i p : nat) : Q :=
  nth p (data (nth i ts (mkT [] []))) 0%Q.

(** The majority sign at position [p] of a list of task tensors: by the sum
    of the values ("total") or by the sum of the signs (any other method
    accepted, that is "frequency"). *)
Definition consensus (method : string) (ts : list (Tensor Q)) (p : nat) : Q :=
  where_nonneg
    (if (method =? "total")%string
     then task_sum (length ts) (fun j => elem ts j p)
     else task_sum (length ts) (fun j => Qsign (elem ts j p))).

(** Task [i] agrees with the majority sign at position [p]. *)
Definition agrees (method : string) (ts : list (Tensor Q)) (i p : nat) : bool :=
  Qeq_bool (Qsign (elem ts i p)) (consensus method ts p).

(** Every element of a list is zero. *)
Definition all_zero (l : list Q) : Prop := Forall (fun x => (x == 0)%Q) l.

(** [clamp(min=1e-6)] at one element. *)
Definition clamp_eps (x : Q) : Q := if Qltb x eps then eps else x.

(** The mean at position [p] of the task tensors that agree with the
    majority sign there, each weighted by its energy weight; the divisor is
    the sum of the weights of the agreeing tasks, at least [1e-6]. *)
Definition energy_mean (method : string) (ts : list (Tensor Q)) (w : Tensor Q)
  (p : nat) : Q :=
  (task_sum (length ts)
     (fun i => elem ts i p * (nth i (data w) 0 * b2q (agrees method ts i p)))
   / clamp_eps (task_sum (length ts)
                  (fun i => nth i (data w) 0 * b2q (agrees method ts i p))))%Q.

(** The weighted sum of the task tensors at position [p]. *)
Definition weighted_sum (ts : list (Tensor Q)) (w : Tensor Q) (p : nat) : Q :=
  task_sum (length ts) (fun i => (elem ts i p * nth i (data w) 0)%Q).

(** The weighted sum, at position [p], of the task tensors that agree with
    the majority sign there, over the number of those tasks (1 when there is
    none). *)
Definition consensus_mean (method : string) (ts : list (Tensor Q)) (w : Tensor Q)
  (p : nat) : Q :=
  (task_sum (length ts)
     (fun i => elem ts i p * nth i (data w) 0 * b2q (agrees method ts i p))
   / clamp1 (task_sum (length ts) (fun i => b2q (agrees method ts i p))))%Q.

(* ------------------------------------------------------------------ *)
(** ** Lists: blocks, zips and pointwise relations *)

Section ListFacts.

Context {A B C : Type}.

Lemma zipWith_length (f : A -> B -> C) (l1 : list A) (l2 : list B) :
  length (zipWith f l1 l2) = Nat.min (length l1) (length l2).
Proof.
  revert l2; induction l1 as [|x l1 IH]; intros [|y l2]; simpl; auto.
Qed.

Lemma nth_zipWith (f : A -> B -> C) (l1 : list A) (l2 : list B) p da db dc :
  p < length l1 -> p < length l2 ->
  nth p (zipWith f l1 l2) dc = f (nth p l1 da) (nth p l2 db).
Proof.
  revert l2 p; induction l1 as [|x l1 IH]; intros [|y l2] [|p]; simpl;
    intros H1 H2; try lia; auto.
  apply IH; lia.
Qed.

Lemma chunks_length (n m : nat) (l : list A) : length (chunks n m l) = n.
Proof.
  revert l; induction n as [|n IH]; intros l; simpl; auto.
Qed.

Lemma chunks_map (f : A -> B) (n m : nat) (l : list A) :
  chunks n m (map f l) = map (map f) (chunks n m l).
Proof.
  revert l; induction n as [|n IH]; intros l; simpl; auto.
  rewrite firstn_map, skipn_map, IH; reflexivity.
Qed.

Lemma chunks_concat (m : nat) (rs : list (list A)) :
  Forall (fun r => length r = m) rs ->
  chunks (length rs) m (concat rs) = rs.
Proof.
  induction 1 as [|r rs Hr _ IH]; simpl; auto.
  rewrite firstn_app, skipn_app.
  replace (m - length r) with 0 by lia.
  rewrite firstn_all2, skipn_all2 by lia.
  simpl; rewrite app_nil_r, IH; reflexivity.
Qed.

Lemma chunks_all_length (n m : nat) (l : list A) :
  length l = n * m -> Forall (fun r => length r = m) (chunks n m l).
Proof.
  revert l; induction n as [|n IH]; intros l Hl; simpl; constructor.
  - rewrite length_firstn; lia.
  - apply IH; rewrite length_skipn; lia.
Qed.

Lemma concat_chunks (n m : nat) (l : list A) :
  length l = n * m -> concat (chunks n m l) = l.
Proof.
  revert l; induction n as [|n IH]; intros l Hl; simpl.
  - destruct l; simpl in *; auto; discriminate.
  - rewrite IH by (rewrite length_skipn; lia).
    apply firstn_skipn.
Qed.

Lemma nth_chunks (n m i : nat) (l : list A) :
  i < n -> nth i (chunks n m l) [] = firstn m (skipn (i * m) l).
Proof.
  revert i l; induction n as [|n IH]; intros [|i] l Hi; simpl; try lia; auto.
  rewrite IH by lia. rewrite skipn_skipn. do 2 f_equal; lia.
Qed.

End ListFacts.

Section Pointwise.

Context {A B : Type} (R : A -> B -> Prop).

Lemma Forall2_firstn n (l : list A) (l' : list B) :
  Forall2 R l l' -> Forall2 R (firstn n l) (firstn n l').
Proof.
  intros H; revert n; induction H; intros [|n]; simpl; auto.
Qed.

Lemma Forall2_skipn n (l : list A) (l' : list B) :
  Forall2 R l l' -> Forall2 R (skipn n l) (skipn n l').
Proof.
  intros H; revert n; induction H; intros [|n]; simpl; auto.
Qed.

Lemma chunks_Forall2 n m (l : list A) (l' : list B) :
  Forall2 R l l' -> Forall2 (Forall2 R) (chunks n m l) (chunks n m l').
Proof.
  revert l l'; induction n as [|n IH]; intros l l' H; simpl; constructor.
  - apply Forall2_firstn; assumption.
  - apply IH, Forall2_skipn; assumption.
Qed.

End Pointwise.

(* ------------------------------------------------------------------ *)
(** ** Broadcasting: shapes and elements *)

Lemma concat_repeat_map {A B} (f : A -> B) (l : list A) n :
  concat (repeat (map f l) n) = map f (concat (repeat l n)).
Proof.
  induction n as [|n IH]; simpl; auto.
  rewrite map_app, IH; reflexivity.
Qed.

Lemma expand_map {A B} (f : A -> B) (s r : list nat) (d : list A) :
  expand s r (map f d) = map f (expand s r d).
Proof.
  revert r d; induction s as [|a s IH]; intros [|b r] d; simpl; auto.
  rewrite chunks_map, map_map.
  rewrite (map_ext _ (fun c => map f (expand s r c))) by (intros; apply IH).
  rewrite <- (map_map (expand s r) (map f)), <- concat_map.
  destruct (a =? b); auto using concat_repeat_map.
Qed.

Lemma expand_same {A} (s : list nat) (d : list A) :
  length d = numel_of s -> expand s s d = d.
Proof.
  revert d; induction s as [|a s IH]; intros d Hd; simpl; auto.
  rewrite Nat.eqb_refl.
  simpl in Hd.
  rewrite (map_ext_in _ (fun c => c)).
  - rewrite map_id; apply concat_chunks; assumption.
  - intros c Hc; apply IH.
    pose proof (chunks_all_length a (numel_of s) d Hd) as Hall.
    rewrite Forall_forall in Hall; auto.
Qed.

Lemma pad_shape_same (s : list nat) : pad_shape (length s) s = s.
Proof.
  unfold pad_shape; rewrite Nat.sub_diag; reflexivity.
Qed.

Lemma broadcast_aligned_same (s : list nat) : broadcast_aligned s s = Some s.
Proof.
  induction s as [|a s IH]; simpl; auto.
  rewrite IH, Nat.eqb_refl; reflexivity.
Qed.

Lemma broadcast_shapes_same (s : list nat) : broadcast_shapes s s = Some s.
Proof.
  unfold broadcast_shapes; rewrite Nat.max_id, pad_shape_same.
  apply broadcast_aligned_same.
Qed.

(** An operation on two well-formed tensors of one shape is the pointwise
    operation on their elements. *)
Lemma bop_same_shape {A B C} (f : A -> B -> C) (a : Tensor A) (b : Tensor B) :
  shape a = shape b -> wf a -> wf b ->
  bop f a b = Ok (mkT (shape a) (zipWith f (data a) (data b))).
Proof.
  intros Hs Ha Hb; unfold bop.
  rewrite <- Hs, broadcast_shapes_same, pad_shape_same.
  rewrite !expand_same; auto.
  rewrite Hb; unfold numel; rewrite Hs; reflexivity.
Qed.

(* ------------------------------------------------------------------ *)
(** ** Sums along the task axis *)

Lemma Forall2_Qeq_refl (l : list Q) : Forall2 Qeq l l.
Proof. induction l; constructor; auto; reflexivity. Qed.

Lemma Forall2_Qeq_trans (l1 l2 l3 : list Q) :
  Forall2 Qeq l1 l2 -> Forall2 Qeq l2 l3 -> Forall2 Qeq l1 l3.
Proof.
  intros H; revert l3; induction H; intros l3 H3; inversion H3; subst;
    constructor; eauto. etransitivity; eassumption.
Qed.

Lemma zipWith_Qplus_proper (l1 l1' l2 l2' : list Q) :
  Forall2 Qeq l1 l1' -> Forall2 Qeq l2 l2' ->
  Forall2 Qeq (zipWith Qplus l1 l2) (zipWith Qplus l1' l2').
Proof.
  intros H; revert l2 l2'; induction H as [|x x' l1 l1' Hx _ IH];
    intros l2 l2' H2; simpl; auto.
  destruct H2 as [|y y' l2 l2' Hy H2]; simpl; constructor; auto.
  rewrite Hx, Hy; reflexivity.
Qed.

Lemma sum_rows_proper (m : nat) (rs rs' : list (list Q)) :
  Forall2 (Forall2 Qeq) rs rs' -> Forall2 Qeq (sum_rows m rs) (sum_rows m rs').
Proof.
  induction 1; simpl.
  - apply Forall2_Qeq_refl.
  - apply zipWith_Qplus_proper; assumption.
Qed.

Lemma zipWith_Qplus_scale (c : Q) (l1 l2 l2' : list Q) :
  Forall2 Qeq l2' (map (Qmult c) l2) ->
  Forall2 Qeq (zipWith Qplus (map (Qmult c) l1) l2') (map (Qmult c) (zipWith Qplus l1 l2)).
Proof.
  revert l2 l2'; induction l1 as [|x l1 IH]; intros l2 l2' H; simpl; auto.
  destruct l2 as [|y l2]; inversion H as [|y' cy l2'' ml2 Hy Hl]; subst;
    simpl; constructor; auto.
  rewrite Hy; ring.
Qed.

Lemma sum_rows_scale (c : Q) (m : nat) (rs : list (list Q)) :
  Forall2 Qeq (sum_rows m (map (map (Qmult c)) rs)) (map (Qmult c) (sum_rows m rs)).
Proof.
  induction rs as [|r rs IH]; simpl.
  - induction m; simpl; constructor; auto. ring.
  - apply zipWith_Qplus_scale; assumption.
Qed.

Lemma sum_rows_length (m : nat) (rs : list (list Q)) :
  Forall (fun r => length r = m) rs -> length (sum_rows m rs) = m.
Proof.
  induction 1 as [|r rs Hr _ IH]; simpl.
  - apply repeat_length.
  - rewrite zipWith_length, IH, Hr; lia.
Qed.

Lemma nth_sum_rows (m p : nat) (rs : list (list Q)) :
  Forall (fun r => length r = m) rs -> p < m ->
  nth p (sum_rows m rs) 0%Q = Qsum (map (fun r => nth p r 0%Q) rs).
Proof.
  intros H Hp; induction H as [|r rs Hr Hrs IH]; simpl.
  - apply nth_repeat.
  - rewrite (nth_zipWith Qplus r (sum_rows m rs) 0%Q 0%Q 0%Q).
    + rewrite IH; reflexivity.
    + lia.
    + rewrite sum_rows_length; auto.
Qed.

Lemma zipWith_Qmult_scale (c : Q) (l1 l2 : list Q) :
  Forall2 Qeq (zipWith Qmult (map (Qmult c) l1) l2) (map (Qmult c) (zipWith Qmult l1 l2)).
Proof.
  revert l2; induction l1 as [|x l1 IH]; intros [|y l2]; simpl; constructor; auto.
  ring.
Qed.

Lemma sum_dim0_proper (a b : Tensor Q) : teq a b -> teq (sum_dim0 a) (sum_dim0 b).
Proof.
  destruct a as [sa da], b as [sb db]; intros [Hs Hd]; simpl in *; subst sb.
  unfold sum_dim0; simpl.
  destruct sa as [|n s]; split; simpl; auto.
  apply sum_rows_proper, chunks_Forall2; assumption.
Qed.

Lemma sum_dim0_tscale (c : Q) (a : Tensor Q) :
  teq (sum_dim0 (tscale c a)) (tscale c (sum_dim0 a)).
Proof.
  destruct a as [sa da]; unfold sum_dim0, tscale, tmap; simpl.
  destruct sa as [|n s]; split; simpl; auto.
  - apply Forall2_Qeq_refl.
  - rewrite chunks_map; apply sum_rows_scale.
Qed.

Lemma teq_trans (a b c : Tensor Q) : teq a b -> teq b c -> teq a c.
Proof.
  intros [H1 H2] [H3 H4]; split; [congruence|].
  eapply Forall2_Qeq_trans; eassumption.
Qed.

(* ------------------------------------------------------------------ *)
(** ** Random pruning and the pruning dispatcher *)

(** C1 (fails on the code): with [rescale=True] the quotient by [density] is
    computed and dropped, so [random_pruning] returns exactly what it returns
    with [rescale=False], for every random source, tensor and density.  With
    every element of [[2, 4]] kept at density 1/2 the result is [[2, 4]],
    where the rescaling the docstring describes gives [[4, 8]]. *)
Theorem random_pruning_rescale_dropped :
  (forall u t density,
      random_pruning u t density true = random_pruning u t density false) /\
  random_pruning (fun _ => 0%Q) (mkT [2] [2; 4]%Q) (1 # 2) true
    = Ok (mkT [2] [2; 4]%Q) /\
  random_pruning_documented (fun _ => 0%Q) (mkT [2] [2; 4]%Q) (1 # 2) true
    = Ok (mkT [2] [4; 8]%Q).
Proof.
  split; [|split].
  - intros u t density; unfold random_pruning.
    destruct (bernoulli u t density) as [m|e]; simpl; auto.
  - vm_compute; reflexivity.
  - vm_compute; reflexivity.
Qed.

(** C9: whatever the method, [prune] with [density >= 1] warns and returns
    the tensor it was given, and with [density < 0] raises [ValueError]. *)
Theorem prune_density_guard (u : nat -> Q) (t : Tensor Q) (density : Q) (m : string)
  (rescale : bool) :
  ((1 <= density)%Q -> prune u t density m rescale = ([UserWarning], Ok t)) /\
  ((density < 0)%Q -> prune u t density m rescale = ([], Raise ValueError)).
Proof.
  unfold prune; split; intros H.
  - apply Qle_bool_iff in H; rewrite H; reflexivity.
  - destruct (Qle_bool 1 density) eqn:E.
    + apply Qle_bool_iff in E.
      exfalso; apply (Qlt_irrefl 0).
      apply Qlt_trans with 1%Q; [reflexivity|].
      apply Qle_lt_trans with density; assumption.
    + unfold Qltb.
      destruct (Qle_bool 0 density) eqn:E0; auto.
      apply Qle_bool_iff in E0. exfalso.
      apply (Qlt_irrefl density), Qlt_le_trans with 0%Q; assumption.
Qed.

Lemma prune_density_guard_witness :
  prune (fun _ => 0%Q) (mkT [2] [3; -1]%Q) (3 # 2) "median" false
    = ([UserWarning], Ok (mkT [2] [3; -1]%Q)) /\
  prune (fun _ => 0%Q) (mkT [2] [3; -1]%Q) (- (1 # 2)) "magnitude" false
    = ([], Raise ValueError).
Proof.
  split.
  - apply (proj1 (prune_density_guard (fun _ => 0%Q) (mkT [2] [3; -1]%Q) (3 # 2)
                    "median" false)).
    vm_compute; discriminate.
  - apply (proj2 (prune_density_guard (fun _ => 0%Q) (mkT [2] [3; -1]%Q) (- (1 # 2))
                    "magnitude" false)).
    vm_compute; reflexivity.
Defined.

(* ------------------------------------------------------------------ *)
(** ** The weight broadcaster *)

(** C3 (fails on the code): a weight tensor of rank 3 against a reference of
    rank 2 is not rejected; it comes back as it was given. *)
Lemma reshape_weight_rank_excess_accepted :
  let task_tensors := mkT [2; 3] [1; 2; 3; 4; 5; 6]%Q in
  let weights := mkT [2; 1; 1] [1; 2]%Q in
  dim task_tensors < dim weights /\
  reshape_weight_task_tensors task_tensors weights = Ok weights.
Proof.
  simpl; split; [unfold dim; simpl; lia | reflexivity].
Qed.

(** C3 (amended): when the rank of the weights is at least the rank of the
    reference tensor, [reshape_weight_task_tensors] raises nothing and
    returns the weights with their shape and values unchanged. *)
Theorem reshape_weight_rank_excess_identity {A} (task_tensors : Tensor A)
  (weights : Tensor Q) :
  dim task_tensors <= dim weights ->
  reshape_weight_task_tensors task_tensors weights = Ok weights.
Proof.
  intros H; unfold reshape_weight_task_tensors, view.
  replace (dim task_tensors - dim weights) with 0 by lia.
  simpl; rewrite app_nil_r.
  unfold numel; rewrite Nat.eqb_refl.
  destruct weights; reflexivity.
Qed.

Lemma reshape_weight_rank_excess_identity_witness :
  reshape_weight_task_tensors (mkT [2; 3] [1; 2; 3; 4; 5; 6]%Q) (mkT [2; 1; 1] [1; 2]%Q)
    = Ok (mkT [2; 1; 1] [1; 2]%Q).
Proof.
  apply reshape_weight_rank_excess_identity.
  unfold dim; simpl; lia.
Defined.

(* ------------------------------------------------------------------ *)
(** ** Task arithmetic *)

Lemma all_shapes_tscale (c : Q) (s : list nat) (ts : list (Tensor Q)) :
  all_shapes s (map (tscale c) ts) = all_shapes s ts.
Proof.
  unfold all_shapes; induction ts as [|t ts IH]; simpl; auto.
  rewrite IH; reflexivity.
Qed.

Lemma stack_tscale (c : Q) (ts : list (Tensor Q)) :
  stack (map (tscale c) ts) = rmap (tscale c) (stack ts).
Proof.
  destruct ts as [|t ts]; [reflexivity|].
  unfold stack; cbn [map]. change (shape (tscale c t)) with (shape t).
  change (tscale c t :: map (tscale c) ts) with (map (tscale c) (t :: ts)).
  rewrite all_shapes_tscale.
  destruct (all_shapes (shape t) (t :: ts)); [|reflexivity].
  unfold rmap, bind, tscale, tmap; cbn [shape data].
  rewrite length_map; do 2 f_equal.
  change (data t :: map data ts) with (map data (t :: ts)).
  rewrite concat_map, map_map; simpl; rewrite map_map; reflexivity.
Qed.

Lemma bop_Qmult_tscale (c : Q) (a b : Tensor Q) :
  req (bop Qmult (tscale c a) b) (rmap (tscale c) (bop Qmult a b)).
Proof.
  unfold bop; change (shape (tscale c a)) with (shape a).
  destruct (broadcast_shapes (shape a) (shape b)) as [s|]; simpl; [|reflexivity].
  split; simpl; auto.
  rewrite expand_map; apply zipWith_Qmult_scale.
Qed.

(** C7: scaling every task tensor by [c] scales the result of
    [task_arithmetic] by [c], for fixed weights; in particular the scaled call
    raises exactly when the original one does. *)
Theorem task_arithmetic_linear (task_tensors : list (Tensor Q)) (weights : Tensor Q)
  (c : Q) :
  req (task_arithmetic (map (tscale c) task_tensors) weights)
      (rmap (tscale c) (task_arithmetic task_tensors weights)).
Proof.
  unfold task_arithmetic; rewrite stack_tscale.
  destruct (stack task_tensors) as [st|e]; simpl; [|reflexivity].
  change (reshape_weight_task_tensors (tscale c st) weights)
    with (reshape_weight_task_tensors st weights).
  destruct (reshape_weight_task_tensors st weights) as [w|e]; simpl; [|reflexivity].
  pose proof (bop_Qmult_tscale c st w) as H.
  destruct (bop Qmult (tscale c st) w) as [x|e1], (bop Qmult st w) as [y|e2];
    simpl in *; try contradiction; auto.
  eapply teq_trans; [apply sum_dim0_proper, H | apply sum_dim0_tscale].
Qed.

(** The end-to-end example: two task tensors [[1,2,-3,4]] and [[1,-2,3,-4]]
    with weights [[0.5, 0.5]] merge into [[1,0,0,0]]. *)
Example task_arithmetic_example :
  req (task_arithmetic [mkT [4] [1; 2; -3; 4]%Q; mkT [4] [1; -2; 3; -4]%Q]
         (mkT [2] [1 # 2; 1 # 2]%Q))
      (Ok (mkT [4] [1; 0; 0; 0]%Q)).
Proof.
  vm_compute; split; [reflexivity|].
  repeat constructor.
Qed.

(* ------------------------------------------------------------------ *)
(** ** Flat indices of a stacked tensor *)

Lemma nth_block {A} (m i p : nat) (l : list A) (d : A) :
  p < m -> nth p (firstn m (skipn (i * m) l)) d = nth (i * m + p) l d.
Proof.
  intros Hp; rewrite nth_firstn.
  destruct (Nat.ltb_spec p m); [|lia].
  apply nth_skipn.
Qed.

Lemma get_flat {A} (d : A) (t : Tensor A) (n : nat) (s : list nat) (i p : nat) :
  shape t = n :: s -> i < n -> p < numel_of s ->
  get d t i p = nth (i * numel_of s + p) (data t) d.
Proof.
  intros Hs Hi Hp; unfold get, rows; rewrite Hs.
  rewrite nth_chunks by assumption.
  apply nth_block; assumption.
Qed.

Lemma map_nth_chunks {A} (n m p : nat) (l : list A) (d : A) :
  p < m ->
  map (fun r => nth p r d) (chunks n m l)
    = map (fun i => nth (i * m + p) l d) (seq 0 n).
Proof.
  intros Hp; revert l; induction n as [|n IH]; intros l; [reflexivity|].
  cbn [chunks map seq]; f_equal.
  - rewrite nth_firstn; destruct (Nat.ltb_spec p m); [reflexivity|lia].
  - rewrite IH, <- seq_shift, map_map.
    apply map_ext; intros i; rewrite nth_skipn; f_equal; lia.
Qed.

Lemma length_concat_repeat {A} (b : list A) (n : nat) :
  length (concat (repeat b n)) = n * length b.
Proof.
  induction n as [|n IH]; simpl; auto.
  rewrite length_app, IH; reflexivity.
Qed.

Lemma nth_concat_repeat {A} (b : list A) (n i p : nat) (d : A) :
  i < n -> p < length b ->
  nth (i * length b + p) (concat (repeat b n)) d = nth p b d.
Proof.
  revert i; induction n as [|n IH]; intros i Hi Hp; [lia|]; simpl.
  destruct i as [|i]; simpl.
  - apply app_nth1; assumption.
  - rewrite app_nth2 by lia.
    replace (length b + i * length b + p - length b) with (i * length b + p) by lia.
    apply IH; lia.
Qed.

Lemma nth_concat_repeat_len {A} (b : list A) (m n i p : nat) (d : A) :
  length b = m -> i < n -> p < m ->
  nth (i * m + p) (concat (repeat b n)) d = nth p b d.
Proof.
  intros <-; apply nth_concat_repeat.
Qed.

Lemma expand_lead {A} (n : nat) (s : list nat) (d : list A) :
  length d = numel_of s -> expand (1 :: s) (n :: s) d = concat (repeat d n).
Proof.
  intros Hd; cbn [expand chunks map].
  rewrite firstn_all2 by lia.
  rewrite expand_same by assumption.
  cbn [concat]; rewrite app_nil_r.
  destruct (Nat.eqb_spec 1 n) as [<-|_]; [simpl; rewrite app_nil_r|]; reflexivity.
Qed.

Lemma broadcast_shapes_lead (n : nat) (s : list nat) :
  broadcast_shapes (n :: s) s = Some (n :: s).
Proof.
  unfold broadcast_shapes, pad_shape; cbn [length].
  replace (Nat.max (S (length s)) (length s)) with (S (length s)) by lia.
  replace (S (length s) - S (length s)) with 0 by lia.
  replace (S (length s) - length s) with 1 by lia.
  cbn [repeat app broadcast_aligned].
  rewrite broadcast_aligned_same.
  destruct (n =? 1) eqn:E; [|reflexivity].
  apply Nat.eqb_eq in E; subst; reflexivity.
Qed.

(** An operation between a stacked tensor and a tensor of the shape of one
    task: the second operand is repeated along the task axis. *)
Lemma bop_lead {A B C} (f : A -> B -> C) (a : Tensor A) (b : Tensor B) n s :
  shape a = n :: s -> shape b = s -> wf a -> wf b ->
  bop f a b = Ok (mkT (n :: s) (zipWith f (data a) (concat (repeat (data b) n)))).
Proof.
  intros Ha Hb Wa Wb; unfold bop.
  rewrite Ha, Hb, broadcast_shapes_lead.
  cbn [length]. unfold pad_shape at 1; cbn [length].
  rewrite Nat.sub_diag; cbn [repeat app].
  unfold pad_shape; replace (S (length s) - length s) with 1 by lia.
  cbn [repeat app].
  rewrite expand_same, expand_lead; auto.
  - unfold wf, numel in Wb; rewrite Hb in Wb; exact Wb.
  - unfold wf, numel in Wa; rewrite Ha in Wa; exact Wa.
Qed.

Lemma wf_stacked {A} (t : Tensor A) n s :
  wf t -> shape t = n :: s -> length (data t) = n * numel_of s.
Proof.
  unfold wf, numel; intros H Hs; rewrite H, Hs; reflexivity.
Qed.

Lemma flat_index_bound (n m i p : nat) : i < n -> p < m -> i * m + p < n * m.
Proof. intros; nia. Qed.

Lemma length_sum_rows_chunks (n m : nat) (l : list Q) :
  length l = n * m -> length (sum_rows m (chunks n m l)) = m.
Proof.
  intros H; apply sum_rows_length, chunks_all_length; assumption.
Qed.

(** The sum along the task axis at position [p], by flat indices. *)
Lemma nth_sum_dim0 (t : Tensor Q) n s p :
  wf t -> shape t = n :: s -> p < numel_of s ->
  nth p (data (sum_dim0 t)) 0%Q = task_sum n (fun i => get 0%Q t i p).
Proof.
  intros W Hs Hp; unfold sum_dim0, task_sum; rewrite Hs; cbn [data].
  rewrite nth_sum_rows; auto.
  - rewrite map_nth_chunks by assumption.
    f_equal; apply map_ext_in; intros i Hi; apply in_seq in Hi.
    symmetry; apply get_flat with (n := n); auto; lia.
  - apply chunks_all_length, wf_stacked; assumption.
Qed.

(* ------------------------------------------------------------------ *)
(** ** The sign consensus *)

Lemma wf_sum_dim0 (t : Tensor Q) n s :
  wf t -> shape t = n :: s -> wf (sum_dim0 t) /\ shape (sum_dim0 t) = s.
Proof.
  intros W Hs; unfold wf, numel, sum_dim0; rewrite Hs; cbn [shape data].
  split; [|reflexivity].
  apply length_sum_rows_chunks, wf_stacked; assumption.
Qed.

Lemma wf_tmap {A B} (f : A -> B) (t : Tensor A) : wf t -> wf (tmap f t).
Proof.
  unfold wf, numel, tmap; cbn [shape data]; rewrite length_map; auto.
Qed.

Lemma get_tmap {A B} (f : A -> B) (t : Tensor A) (d : A) n s i p :
  wf t -> shape t = n :: s -> i < n -> p < numel_of s ->
  get (f d) (tmap f t) i p = f (get d t i p).
Proof.
  intros W Hs Hi Hp.
  rewrite (@get_flat _ (f d) (tmap f t) n s); auto.
  rewrite (@get_flat _ d t n s); auto.
  cbn [tmap data]; apply map_nth.
Qed.

(** The comparison of every task's signs with one row of majority signs. *)
Lemma vote_mask (t sm : Tensor Q) n s :
  wf t -> shape t = n :: s -> wf sm -> shape sm = s ->
  exists mask,
    bop Qeq_bool (tmap Qsign t) (tmap where_nonneg sm) = Ok mask /\
    shape mask = n :: s /\ wf mask /\
    forall i p, i < n -> p < numel_of s ->
      get false mask i p
        = Qeq_bool (Qsign (get 0%Q t i p)) (where_nonneg (nth p (data sm) 0%Q)).
Proof.
  intros W Hs Wm Hm.
  pose proof (wf_stacked W Hs) as Ht.
  assert (Hlm : length (data sm) = numel_of s)
    by (unfold wf, numel in Wm; rewrite Hm in Wm; exact Wm).
  rewrite (@bop_lead _ _ _ Qeq_bool (tmap Qsign t) (tmap where_nonneg sm) n s);
    auto using wf_tmap.
  eexists; split; [reflexivity|]; split; [reflexivity|]; split.
  - unfold wf, numel; cbn [shape data tmap numel_of fold_right].
    rewrite zipWith_length, length_concat_repeat, !length_map, Ht, Hlm.
    fold (numel_of s); lia.
  - intros i p Hi Hp.
    rewrite (@get_flat _ _ _ n s); auto; cbn [data tmap].
    pose proof (flat_index_bound Hi Hp) as Hb.
    rewrite (nth_zipWith Qeq_bool _ _ (Qsign 0%Q) (where_nonneg 0%Q)).
    + rewrite map_nth.
      rewrite nth_concat_repeat_len; auto; [|rewrite length_map; lia].
      rewrite map_nth.
      rewrite (@get_flat _ _ _ n s); auto.
    + rewrite length_map; lia.
    + rewrite length_concat_repeat, length_map; lia.
Qed.

(** C5: with method "total", the mask has the stacked shape and is true at
    task [i], position [p] exactly when the sign of that element equals the
    majority sign, which is +1 when the sum of the raw values of all tasks at
    [p] is at least 0 and -1 otherwise; on [[1,-1],[1,1],[-1,1]] the mask is
    [[true,false],[true,true],[false,true]]. *)
Theorem majority_sign_mask_total :
  (forall (t : Tensor Q) n s, wf t -> shape t = n :: s ->
     exists mask,
       calculate_majority_sign_mask t "total" = Ok mask /\
       shape mask = shape t /\ wf mask /\
       forall i p, i < n -> p < numel_of s ->
         get false mask i p
           = Qeq_bool (Qsign (get 0%Q t i p))
               (if Qle_bool 0 (task_sum n (fun j => get 0%Q t j p))
                then 1%Q else (-1)%Q)) /\
  calculate_majority_sign_mask (mkT [3; 2] [1; -1; 1; 1; -1; 1]%Q) "total"
    = Ok (mkT [3; 2] [true; false; true; true; false; true]).
Proof.
  split; [|vm_compute; reflexivity].
  intros t n s W Hs.
  destruct (wf_sum_dim0 W Hs) as [Wm Hm].
  destruct (vote_mask W Hs Wm Hm) as (mask & E & Hsh & Wk & Hget).
  exists mask; unfold calculate_majority_sign_mask; cbn [String.eqb Ascii.eqb Bool.eqb bind].
  rewrite Hs; repeat split; auto.
  intros i p Hi Hp; rewrite Hget by assumption.
  rewrite (nth_sum_dim0 W Hs Hp); reflexivity.
Qed.

Lemma majority_sign_mask_total_witness :
  let t := mkT [3; 2] [1; -1; 1; 1; -1; 1]%Q in
  exists mask,
    calculate_majority_sign_mask t "total" = Ok mask /\
    shape mask = shape t /\ wf mask /\
    forall i p, i < 3 -> p < numel_of [2] ->
      get false mask i p
        = Qeq_bool (Qsign (get 0%Q t i p))
            (if Qle_bool 0 (task_sum 3 (fun j => get 0%Q t j p))
             then 1%Q else (-1)%Q).
Proof.
  apply (proj1 majority_sign_mask_total (mkT [3; 2] [1; -1; 1; 1; -1; 1]%Q) 3 [2]);
    reflexivity.
Defined.

Lemma task_sum_ext (n : nat) (f g : nat -> Q) :
  (forall i, i < n -> f i = g i) -> task_sum n f = task_sum n g.
Proof.
  intros H; unfold task_sum; f_equal.
  apply map_ext_in; intros i Hi; apply in_seq in Hi; apply H; lia.
Qed.

Lemma Qsum_map_Qeq {A} (f g : A -> Q) (l : list A) :
  (forall x, In x l -> (f x == g x)%Q) -> (Qsum (map f l) == Qsum (map g l))%Q.
Proof.
  induction l as [|x l IH]; intros H; simpl; [reflexivity|].
  rewrite (H x), IH; auto with datatypes; reflexivity.
Qed.

Lemma task_sum_Qeq (n : nat) (f g : nat -> Q) :
  (forall i, i < n -> (f i == g i)%Q) -> (task_sum n f == task_sum n g)%Q.
Proof.
  intros H; apply Qsum_map_Qeq; intros i Hi; apply in_seq in Hi; apply H; lia.
Qed.

Lemma Qsum_map_const {A} (c : Q) (l : list A) :
  (Qsum (map (fun _ => c) l) == inject_Z (Z.of_nat (length l)) * c)%Q.
Proof.
  induction l as [|x l IH]; [simpl; ring|].
  cbn [map Qsum fold_right length]; fold (Qsum (map (fun _ : A => c) l)).
  rewrite IH, Nat2Z.inj_succ; unfold Z.succ; rewrite inject_Z_plus; ring.
Qed.

Lemma task_sum_const (n : nat) (c : Q) :
  (task_sum n (fun _ => c) == inject_Z (Z.of_nat n) * c)%Q.
Proof.
  unfold task_sum; rewrite Qsum_map_const, length_seq; reflexivity.
Qed.

Lemma Qsign_zero (x : Q) : (x == 0)%Q -> Qsign x = 0%Q.
Proof.
  unfold Qeq, Qsign; simpl; intros H.
  replace (Qnum x) with 0%Z by lia; reflexivity.
Qed.

Lemma zero_never_majority (x y : Q) :
  (x == 0)%Q -> Qeq_bool (Qsign x) (where_nonneg y) = false.
Proof.
  intros H; rewrite (Qsign_zero H); unfold where_nonneg.
  destruct (Qle_bool 0 y); reflexivity.
Qed.

(* ------------------------------------------------------------------ *)
(** ** The disjoint merge *)

Lemma get_zip {A B C} (f : A -> B -> C) (a : Tensor A) (b : Tensor B) n s i p da db dc :
  wf a -> wf b -> shape a = n :: s -> shape b = n :: s ->
  i < n -> p < numel_of s ->
  get dc (mkT (n :: s) (zipWith f (data a) (data b))) i p
    = f (get da a i p) (get db b i p).
Proof.
  intros Wa Wb Ha Hb Hi Hp.
  pose proof (flat_index_bound Hi Hp) as Hlt.
  rewrite (@get_flat _ dc _ n s), (@get_flat _ da a n s), (@get_flat _ db b n s); auto.
  cbn [data]; apply nth_zipWith.
  - rewrite (wf_stacked Wa Ha); assumption.
  - rewrite (wf_stacked Wb Hb); assumption.
Qed.

Lemma wf_zip {A B C} (f : A -> B -> C) (a : Tensor A) (b : Tensor B) s :
  wf a -> wf b -> shape a = s -> shape b = s ->
  wf (mkT s (zipWith f (data a) (data b))).
Proof.
  unfold wf, numel; cbn [shape data]; intros Wa Wb Ha Hb.
  rewrite zipWith_length, Wa, Wb, Ha, Hb; lia.
Qed.

(** The participant count at position [p] is the number of tasks whose mask
    is true there. *)
Lemma nth_num_params_preserved (mask : Tensor bool) n s p :
  wf mask -> shape mask = n :: s -> p < numel_of s ->
  nth p (data (num_params_preserved mask)) 0%Q
    = task_sum n (fun i => b2q (get false mask i p)).
Proof.
  intros W Hs Hp; unfold num_params_preserved.
  rewrite (@nth_sum_dim0 _ n s); auto using wf_tmap.
  apply task_sum_ext; intros i Hi.
  apply (@get_tmap _ _ b2q mask false n s); assumption.
Qed.

(** The numerator of [disjoint_merge] at position [p]. *)
Lemma nth_masked_sum (w : Tensor Q) (mask : Tensor bool) n s :
  wf w -> wf mask -> shape w = n :: s -> shape mask = n :: s ->
  exists masked,
    bop Qmult w (tmap b2q mask) = Ok masked /\
    shape masked = n :: s /\ wf masked /\
    forall p, p < numel_of s ->
      nth p (data (sum_dim0 masked)) 0%Q
        = task_sum n (fun i => (get 0 w i p * b2q (get false mask i p))%Q).
Proof.
  intros Ww Wm Hw Hm.
  rewrite bop_same_shape; auto using wf_tmap; [|cbn [tmap shape]; congruence].
  eexists; split; [reflexivity|]; rewrite Hw.
  assert (Wz : wf (mkT (n :: s) (zipWith Qmult (data w) (data (tmap b2q mask)))))
    by (apply wf_zip; auto using wf_tmap).
  split; [reflexivity|]; split; [exact Wz|].
  intros p Hp.
  rewrite (@nth_sum_dim0 _ n s); auto.
  apply task_sum_ext; intros i Hi.
  rewrite (@get_zip _ _ _ Qmult w (tmap b2q mask) n s i p 0%Q (b2q false) 0%Q);
    auto using wf_tmap.
  f_equal; apply (@get_tmap _ _ b2q mask false n s); assumption.
Qed.

Lemma clamp1_ge (x : Q) : (1 <= clamp1 x)%Q.
Proof.
  unfold clamp1, Qltb; destruct (Qle_bool 1 x) eqn:E; simpl.
  - apply Qle_bool_iff; assumption.
  - apply Qle_refl.
Qed.

(** [disjoint_merge] on a stacked tensor and a mask of its shape: the result
    has the shape of one task and is, at each position, the masked sum over the
    clamped participant count. *)
Lemma disjoint_merge_pointwise (w : Tensor Q) (mask : Tensor bool) n s :
  wf w -> wf mask -> shape w = n :: s -> shape mask = n :: s ->
  exists r,
    disjoint_merge w mask = Ok r /\ shape r = s /\ wf r /\
    forall p, p < numel_of s ->
      nth p (data r) 0%Q
        = (task_sum n (fun i => get 0 w i p * b2q (get false mask i p))
           / clamp1 (task_sum n (fun i => b2q (get false mask i p))))%Q.
Proof.
  intros Ww Wm Hw Hm.
  destruct (nth_masked_sum Ww Wm Hw Hm) as (masked & E & Hk & Wk & Hnum).
  unfold disjoint_merge; rewrite E; cbn [bind].
  destruct (wf_sum_dim0 Wk Hk) as [Wx Hx].
  assert (Wb : wf (tmap b2q mask)) by auto using wf_tmap.
  destruct (@wf_sum_dim0 (tmap b2q mask) n s Wb Hm) as [Wc Hc].
  fold (num_params_preserved mask) in Wc, Hc.
  assert (Wcl : wf (clamp_min 1 (num_params_preserved mask)))
    by (apply wf_tmap; assumption).
  rewrite bop_same_shape; auto; [|cbn [clamp_min tmap shape]; congruence].
  eexists; split; [reflexivity|]; rewrite Hx.
  split; [reflexivity|]; split.
  - apply wf_zip; auto.
  - intros p Hp; cbn [data].
    assert (Hlx : length (data (sum_dim0 masked)) = numel_of s)
      by (unfold wf, numel in Wx; rewrite Hx in Wx; exact Wx).
    assert (Hlc : length (data (num_params_preserved mask)) = numel_of s)
      by (unfold wf, numel in Wc; rewrite Hc in Wc; exact Wc).
    rewrite (nth_zipWith Qdiv _ _ 0%Q (clamp1 0%Q)).
    + rewrite Hnum by assumption. f_equal.
      cbn [clamp_min tmap data]. fold clamp1.
      change (fun x : Q => if Qltb x 1 then 1%Q else x) with clamp1.
      rewrite map_nth, nth_num_params_preserved with (n := n) (s := s); auto.
    + lia.
    + cbn [clamp_min tmap data]; rewrite length_map; lia.
Qed.

Lemma Forall2_Qeq_nth (l l' : list Q) :
  length l = length l' ->
  (forall p, p < length l -> (nth p l 0 == nth p l' 0)%Q) ->
  Forall2 Qeq l l'.
Proof.
  revert l'; induction l as [|x l IH]; intros [|y l'] Hl H; simpl in Hl;
    try discriminate; constructor.
  - apply (H 0); simpl; lia.
  - apply IH; [lia|]; intros p Hp; apply (H (S p)); simpl; lia.
Qed.

Lemma get_all_true (mask : Tensor bool) n s i p :
  wf mask -> shape mask = n :: s -> i < n -> p < numel_of s ->
  Forall (fun b => b = true) (data mask) -> get false mask i p = true.
Proof.
  intros W Hs Hi Hp Hall.
  rewrite (@get_flat _ false mask n s); auto.
  rewrite Forall_forall in Hall; apply Hall, nth_In.
  rewrite (wf_stacked W Hs); apply flat_index_bound; assumption.
Qed.

Lemma nth_mean_dim0 (t : Tensor Q) n s p :
  wf t -> shape t = n :: s -> p < numel_of s ->
  nth p (data (mean_dim0 t)) 0%Q
    = (task_sum n (fun i => get 0 t i p) / inject_Z (Z.of_nat n))%Q.
Proof.
  intros W Hs Hp; unfold mean_dim0; rewrite Hs; cbn [tmap data].
  destruct (wf_sum_dim0 W Hs) as [Wx Hx].
  set (f := fun x : Q => (x / inject_Z (Z.of_nat n))%Q).
  rewrite (nth_indep _ 0%Q (f 0%Q)).
  - rewrite (map_nth f), (@nth_sum_dim0 _ n s); auto.
  - rewrite length_map; unfold wf, numel in Wx; rewrite Wx, Hx; assumption.
Qed.

Lemma clamp1_count (n : nat) : 0 < n -> clamp1 (inject_Z (Z.of_nat n)) = inject_Z (Z.of_nat n).
Proof.
  intros Hn; unfold clamp1, Qltb.
  replace (Qle_bool 1 (inject_Z (Z.of_nat n))) with true; [reflexivity|].
  symmetry; apply Qle_bool_iff.
  change 1%Q with (inject_Z 1); rewrite <- Zle_Qle; lia.
Qed.

Lemma clamp1_proper (x y : Q) : (x == y)%Q -> (clamp1 x == clamp1 y)%Q.
Proof.
  intros H; unfold clamp1, Qltb.
  assert (E : Qle_bool 1 x = Qle_bool 1 y).
  { destruct (Qle_bool 1 x) eqn:Ex, (Qle_bool 1 y) eqn:Ey; auto.
    - apply Qle_bool_iff in Ex; rewrite H in Ex; apply Qle_bool_iff in Ex; congruence.
    - apply Qle_bool_iff in Ey; rewrite <- H in Ey; apply Qle_bool_iff in Ey; congruence. }
  rewrite E; destruct (Qle_bool 1 y); simpl; [assumption|reflexivity].
Qed.

(** C6: for [n >= 1] stacked weighted task tensors and a mask of their shape,
    [disjoint_merge] returns a tensor of the shape of one task which (1) is
    the elementwise mean over the tasks when the mask is true everywhere, and
    (2) is 0 at every position where the mask is false for all tasks; (3) the
    divisor, the participant count clamped from below by 1, is at least 1
    everywhere. *)
Theorem disjoint_merge_mean_and_erase (w : Tensor Q) (mask : Tensor bool) n s :
  wf w -> wf mask -> shape w = n :: s -> shape mask = n :: s -> 0 < n ->
  exists r,
    disjoint_merge w mask = Ok r /\ shape r = s /\
    (Forall (fun b => b = true) (data mask) -> teq r (mean_dim0 w)) /\
    (forall p, p < numel_of s ->
       (forall i, i < n -> get false mask i p = false) ->
       (nth p (data r) 0 == 0)%Q) /\
    Forall (fun c => (1 <= c)%Q) (data (clamp_min 1 (num_params_preserved mask))).
Proof.
  intros Ww Wm Hw Hm Hn.
  destruct (disjoint_merge_pointwise Ww Wm Hw Hm) as (r & E & Hr & Wr & Hnth).
  exists r; repeat split; auto.
  - unfold mean_dim0; rewrite Hw; cbn [tmap shape].
    destruct (wf_sum_dim0 Ww Hw) as [_ Hx]; congruence.
  - assert (Hlr : length (data r) = numel_of s)
      by (unfold wf, numel in Wr; rewrite Hr in Wr; exact Wr).
    assert (Hlm : length (data (mean_dim0 w)) = numel_of s).
    { unfold mean_dim0; rewrite Hw; cbn [tmap data]; rewrite length_map.
      destruct (wf_sum_dim0 Ww Hw) as [Wx Hx].
      unfold wf, numel in Wx; rewrite Hx in Wx; exact Wx. }
    apply Forall2_Qeq_nth; [congruence|].
    intros p Hp; rewrite Hlr in Hp.
    rewrite Hnth, (@nth_mean_dim0 w n s) by assumption.
    assert (Hnum : (task_sum n (fun i => get 0 w i p * b2q (get false mask i p))
                    == task_sum n (fun i => get 0 w i p))%Q).
    { apply task_sum_Qeq; intros i Hi.
      rewrite (@get_all_true mask n s) by assumption; simpl; ring. }
    assert (Hden : (clamp1 (task_sum n (fun i => b2q (get false mask i p)))
                    == inject_Z (Z.of_nat n))%Q).
    { transitivity (clamp1 (inject_Z (Z.of_nat n)));
        [|rewrite clamp1_count by assumption; reflexivity].
      apply clamp1_proper.
      rewrite (@task_sum_ext n (fun i => b2q (get false mask i p)) (fun _ => 1%Q)).
      - rewrite task_sum_const; ring.
      - intros i Hi; rewrite (@get_all_true mask n s) by assumption; reflexivity. }
    rewrite Hnum, Hden; reflexivity.
  - intros p Hp Hfalse; rewrite Hnth by assumption.
    assert (Hnum : (task_sum n (fun i => get 0 w i p * b2q (get false mask i p))
                    == task_sum n (fun _ => 0))%Q).
    { apply task_sum_Qeq; intros i Hi; rewrite Hfalse by assumption; simpl; ring. }
    rewrite Hnum, task_sum_const; unfold Qdiv; ring.
  - unfold clamp_min, tmap; cbn [data].
    apply Forall_forall; intros c Hc; apply in_map_iff in Hc.
    destruct Hc as (x & <- & _); apply (clamp1_ge x).
Qed.

Lemma disjoint_merge_mean_and_erase_witness :
  let w := mkT [3; 2] [1; -1; 1; 1; -1; 1]%Q in
  let mask := mkT [3; 2] [true; false; true; false; true; false] in
  exists r,
    disjoint_merge w mask = Ok r /\ shape r = [2] /\
    (Forall (fun b => b = true) (data mask) -> teq r (mean_dim0 w)) /\
    (forall p, p < numel_of [2] ->
       (forall i, i < 3 -> get false mask i p = false) ->
       (nth p (data r) 0 == 0)%Q) /\
    Forall (fun c => (1 <= c)%Q) (data (clamp_min 1 (num_params_preserved mask))).
Proof.
  apply (@disjoint_merge_mean_and_erase
           (mkT [3; 2] [1; -1; 1; 1; -1; 1]%Q)
           (mkT [3; 2] [true; false; true; false; true; false]) 3 [2]);
    try reflexivity; lia.
Defined.

(** C10: for both consensus methods the mask is false wherever the element of
    a task is zero; hence the participant count of [disjoint_merge] at a
    position is the count over the tasks whose element there is not zero, and
    so is the sum of the masked values of any tensor of the stacked shape. *)
Theorem majority_sign_mask_skips_zeros (t : Tensor Q) n s (method : string) :
  wf t -> shape t = n :: s ->
  method = "total"%string \/ method = "frequency"%string ->
  exists mask,
    calculate_majority_sign_mask t method = Ok mask /\ shape mask = n :: s /\
    (forall i p, i < n -> p < numel_of s ->
       (get 0 t i p == 0)%Q -> get false mask i p = false) /\
    (forall p, p < numel_of s ->
       nth p (data (num_params_preserved mask)) 0%Q
         = task_sum n (fun i => nonzero_only (get 0%Q t i p) (b2q (get false mask i p)))) /\
    (forall (w : Tensor Q) p, wf w -> shape w = n :: s -> p < numel_of s ->
       exists masked,
         bop Qmult w (tmap b2q mask) = Ok masked /\
         (nth p (data (sum_dim0 masked)) 0
            == task_sum n (fun i => nonzero_only (get 0 t i p)
                                      (get 0 w i p * b2q (get false mask i p))))%Q).
Proof.
  intros W Hs Hmeth.
  assert (Hsm : exists sm, wf sm /\ shape sm = s /\
                  calculate_majority_sign_mask t method
                    = bop Qeq_bool (tmap Qsign t) (tmap where_nonneg sm)).
  { destruct Hmeth as [-> | ->].
    - exists (sum_dim0 t); destruct (wf_sum_dim0 W Hs); auto.
    - exists (sum_dim0 (tmap Qsign t)).
      destruct (@wf_sum_dim0 (tmap Qsign t) n s); auto using wf_tmap. }
  destruct Hsm as (sm & Wsm & Hsms & Ecall).
  destruct (vote_mask W Hs Wsm Hsms) as (mask & E & Hsh & Wk & Hget).
  assert (Hzero : forall i p, i < n -> p < numel_of s ->
                    (get 0 t i p == 0)%Q -> get false mask i p = false).
  { intros i p Hi Hp Hz; rewrite Hget by assumption.
    apply zero_never_majority; assumption. }
  exists mask; rewrite Ecall; repeat split; auto.
  - intros p Hp; rewrite (@nth_num_params_preserved mask n s) by assumption.
    apply task_sum_ext; intros i Hi; unfold nonzero_only.
    destruct (Qeq_bool (get 0%Q t i p) 0%Q) eqn:Ez; [|reflexivity].
    apply Qeq_bool_iff in Ez; rewrite Hzero by assumption; reflexivity.
  - intros w p Ww Hw Hp.
    destruct (nth_masked_sum Ww Wk Hw Hsh) as (masked & Em & _ & _ & Hnum).
    exists masked; split; [assumption|].
    rewrite Hnum by assumption.
    apply task_sum_Qeq; intros i Hi; unfold nonzero_only.
    destruct (Qeq_bool (get 0%Q t i p) 0%Q) eqn:Ez; [|reflexivity].
    apply Qeq_bool_iff in Ez; rewrite Hzero by assumption; simpl; ring.
Qed.

Lemma majority_sign_mask_skips_zeros_witness :
  let t := mkT [3; 2] [1; 0; -1; 0; 2; -3]%Q in
  exists mask,
    calculate_majority_sign_mask t "frequency" = Ok mask /\ shape mask = [3; 2] /\
    (forall i p, i < 3 -> p < numel_of [2] ->
       (get 0 t i p == 0)%Q -> get false mask i p = false) /\
    (forall p, p < numel_of [2] ->
       nth p (data (num_params_preserved mask)) 0%Q
         = task_sum 3 (fun i => nonzero_only (get 0%Q t i p) (b2q (get false mask i p)))) /\
    (forall (w : Tensor Q) p, wf w -> shape w = [3; 2] -> p < numel_of [2] ->
       exists masked,
         bop Qmult w (tmap b2q mask) = Ok masked /\
         (nth p (data (sum_dim0 masked)) 0
            == task_sum 3 (fun i => nonzero_only (get 0 t i p)
                                      (get 0 w i p * b2q (get false mask i p))))%Q).
Proof.
  apply (@majority_sign_mask_skips_zeros (mkT [3; 2] [1; 0; -1; 0; 2; -3]%Q) 3 [2]
           "frequency"); try reflexivity.
  right; reflexivity.
Defined.

(* ------------------------------------------------------------------ *)
(** ** Top-k selection *)

Section TopK.

Variable v : nat -> Q.

Lemma insert_desc_perm (i : nat) (s : list nat) :
  Permutation (insert_desc v i s) (i :: s).
Proof.
  induction s as [|j s IH]; simpl; auto.
  destruct (Qle_bool (v j) (v i)); auto.
  rewrite IH; apply perm_swap.
Qed.

Lemma insert_desc_sorted (i : nat) (s : list nat) :
  StronglySorted (before v) s -> StronglySorted (before v) (insert_desc v i s).
Proof.
  induction 1 as [|j s Hs IH Hj]; simpl.
  - repeat constructor.
  - destruct (Qle_bool (v j) (v i)) eqn:E.
    + apply Qle_bool_iff in E.
      constructor; [constructor; assumption|].
      constructor; [exact E|].
      eapply Forall_impl; [|exact Hj].
      intros x Hx; unfold before in *; eapply Qle_trans; eassumption.
    + constructor; [assumption|].
      assert (Hij : before v j i).
      { unfold before; destruct (Qlt_le_dec (v i) (v j)) as [Hlt|Hle].
        - apply Qlt_le_weak; assumption.
        - apply Qle_bool_iff in Hle; congruence. }
      rewrite Forall_forall; intros x Hx.
      apply (Permutation_in _ (insert_desc_perm i s)) in Hx.
      destruct Hx as [<-|Hx]; [assumption|].
      rewrite Forall_forall in Hj; auto.
Qed.

Lemma sorted_split (s : list nat) (k i j : nat) :
  StronglySorted (before v) s ->
  In i (firstn k s) -> In j (skipn k s) -> before v i j.
Proof.
  intros H; revert k; induction H as [|x s Hs IH Hx]; intros [|k]; simpl;
    try contradiction.
  intros [<-|Hi] Hj.
  - rewrite Forall_forall in Hx; apply Hx.
    rewrite <- (firstn_skipn k s); apply in_or_app; auto.
  - eapply IH; eassumption.
Qed.

End TopK.

Lemma argsort_desc_perm (l : list Q) :
  Permutation (argsort_desc l) (seq 0 (length l)).
Proof.
  unfold argsort_desc; induction (seq 0 (length l)) as [|i s IH]; simpl; auto.
  rewrite insert_desc_perm; auto.
Qed.

Lemma argsort_desc_sorted (l : list Q) :
  StronglySorted (before (fun i => nth i l 0%Q)) (argsort_desc l).
Proof.
  unfold argsort_desc; induction (seq 0 (length l)) as [|i s IH]; simpl.
  - constructor.
  - apply insert_desc_sorted; assumption.
Qed.

Lemma NoDup_firstn {A} (k : nat) (l : list A) : NoDup l -> NoDup (firstn k l).
Proof.
  intros H; revert k; induction H as [|x l Hx Hl IH]; intros [|k]; simpl;
    constructor; auto.
  intros Hin; apply Hx.
  rewrite <- (firstn_skipn k l); apply in_or_app; auto.
Qed.

(** What [topk] selects: [k] distinct valid indices whose values are at
    least the value at every index left out. *)
Lemma topk_spec (l : list Q) (k : nat) :
  k <= length l ->
  exists kept,
    topk l (Z.of_nat k) = Ok (map (fun i => nth i l 0%Q) kept, kept) /\
    NoDup kept /\ length kept = k /\
    (forall i, In i kept -> i < length l) /\
    (forall i j, In i kept -> j < length l -> ~ In j kept ->
       (nth j l 0 <= nth i l 0)%Q).
Proof.
  intros Hk; exists (firstn k (argsort_desc l)).
  pose proof (argsort_desc_perm l) as HP.
  assert (Hlen : length (argsort_desc l) = length l)
    by (rewrite (Permutation_length HP), length_seq; reflexivity).
  assert (Hnd : NoDup (argsort_desc l))
    by (apply (Permutation_NoDup (Permutation_sym HP)), seq_NoDup).
  repeat split.
  - unfold topk.
    destruct (Z.ltb_spec (Z.of_nat k) 0); [lia|].
    destruct (Z.ltb_spec (Z.of_nat (length l)) (Z.of_nat k)); [lia|].
    simpl; rewrite Nat2Z.id; reflexivity.
  - apply NoDup_firstn; assumption.
  - rewrite length_firstn; lia.
  - intros i Hi.
    assert (Hin : In i (argsort_desc l))
      by (rewrite <- (firstn_skipn k (argsort_desc l)); apply in_or_app; auto).
    apply (Permutation_in _ HP), in_seq in Hin; lia.
  - intros i j Hi Hj Hnot.
    assert (Hin : In j (argsort_desc l))
      by (apply (Permutation_in _ (Permutation_sym HP)), in_seq; lia).
    rewrite <- (firstn_skipn k (argsort_desc l)) in Hin.
    apply in_app_or in Hin; destruct Hin as [Hin|Hin]; [contradiction|].
    exact (@sorted_split _ _ k i j (argsort_desc_sorted l) Hi Hin).
Qed.

(* ------------------------------------------------------------------ *)
(** ** Assignment through indices *)

Lemma set_nth_length {A} (i : nat) (x : A) (l : list A) :
  length (set_nth i x l) = length l.
Proof.
  revert i; induction l as [|y l IH]; intros [|i]; simpl; auto.
Qed.

Lemma nth_set_nth {A} (i j : nat) (x d : A) (l : list A) :
  i < length l ->
  nth j (set_nth i x l) d = if j =? i then x else nth j l d.
Proof.
  revert i j; induction l as [|y l IH]; intros [|i] [|j] Hi; simpl in *;
    try lia; auto.
  apply IH; lia.
Qed.

Lemma index_put_length {A} (idx : list nat) (x : A) (l : list A) :
  length (index_put idx x l) = length l.
Proof.
  unfold index_put; revert l; induction idx as [|i idx IH]; intros l; simpl; auto.
  rewrite IH; apply set_nth_length.
Qed.

Lemma nth_index_put {A} (idx : list nat) (j : nat) (x d : A) (l : list A) :
  (forall i, In i idx -> i < length l) ->
  nth j (index_put idx x l) d
    = if mem j idx then x else nth j l d.
Proof.
  unfold index_put, mem; revert l; induction idx as [|i idx IH]; intros l H; simpl; auto.
  rewrite IH.
  - rewrite nth_set_nth by auto with datatypes.
    destruct (j =? i); simpl; [destruct (existsb _ idx)|]; reflexivity.
  - intros i' Hi'; rewrite set_nth_length; auto with datatypes.
Qed.

(* ------------------------------------------------------------------ *)
(** ** Magnitude pruning *)

Lemma py_int_floor (q : Q) : (0 <= q)%Q -> py_int q = Qfloor q.
Proof.
  destruct q as [a b]; unfold Qle, py_int, Qfloor; simpl; intros H.
  apply Z.quot_div_nonneg; lia.
Qed.

Lemma keep_count_bounds (density : Q) (N : nat) :
  (0 <= density)%Q -> (density <= 1)%Q ->
  (0 <= Qfloor (density * inject_Z (Z.of_nat N)) <= Z.of_nat N)%Z.
Proof.
  intros H0 H1.
  assert (HN : (0 <= inject_Z (Z.of_nat N))%Q)
    by (change 0%Q with (inject_Z 0); rewrite <- Zle_Qle; lia).
  split.
  - change 0%Z with (Qfloor 0); apply Qfloor_resp_le.
    apply Qmult_le_0_compat; assumption.
  - rewrite <- (Qfloor_Z (Z.of_nat N)) at 2; apply Qfloor_resp_le.
    rewrite <- (Qmult_1_l (inject_Z (Z.of_nat N))) at 2.
    apply Qmult_le_compat_r; assumption.
Qed.

(** [magnitude_based_pruning] multiplies the tensor by a 0/1 mask that is 1
    on a set [kept] of exactly [k] distinct positions, none of which has a
    smaller absolute value than a position left out. *)
Lemma magnitude_based_pruning_kept (t : Tensor Q) (density : Q) :
  wf t -> (0 <= density)%Q -> (density <= 1)%Q ->
  exists r kept,
    magnitude_based_pruning t density = Ok r /\
    shape r = shape t /\
    data r = zipWith Qmult (data t) (index_put kept 1%Q (repeat 0%Q (numel t))) /\
    NoDup kept /\
    Z.of_nat (length kept) = Qfloor (density * inject_Z (Z.of_nat (numel t))) /\
    (forall i, In i kept -> i < numel t) /\
    (forall i j, In i kept -> j < numel t -> ~ In j kept ->
       (Qabs (nth j (data t) 0) <= Qabs (nth i (data t) 0))%Q).
Proof.
  intros W H0 H1.
  pose proof (keep_count_bounds (numel t) H0 H1) as Hk.
  set (kz := Qfloor (density * inject_Z (Z.of_nat (numel t)))) in *.
  assert (Hlen : length (map Qabs (data t)) = numel t)
    by (rewrite length_map; exact W).
  destruct (@topk_spec (map Qabs (data t)) (Z.to_nat kz)) as
    (kept & Etop & Hnd & Hkl & Hrange & Htop); [lia|].
  rewrite Z2Nat.id in Etop by lia.
  assert (Wm : wf (mkT (shape t) (index_put kept 1%Q (repeat 0%Q (numel t)))))
    by (unfold wf; cbn [data]; rewrite index_put_length, repeat_length; reflexivity).
  exists (mkT (shape t) (zipWith Qmult (data t)
                           (index_put kept 1%Q (repeat 0%Q (numel t))))), kept.
  repeat split; auto.
  - unfold magnitude_based_pruning.
    rewrite py_int_floor.
    + cbn [flatten tmap data]; fold kz; rewrite Etop; cbn [bind snd].
      unfold view, zeros_like, full_like, flatten, numel; cbn [shape data numel_of fold_right].
      rewrite Nat.mul_1_r, Nat.eqb_refl; cbn [bind].
      fold (numel t); apply bop_same_shape; auto.
    + apply Qmult_le_0_compat; [assumption|].
      change 0%Q with (inject_Z 0); rewrite <- Zle_Qle; lia.
  - rewrite Hkl; lia.
  - intros i Hi; rewrite <- Hlen; auto.
  - intros i j Hi Hj Hnot.
    change 0%Q with (Qabs 0); rewrite <- !(map_nth Qabs).
    apply Htop; auto; rewrite Hlen; assumption.
Qed.

Lemma nonzerob_mult_r (x y : Q) : nonzerob (x * y) = true -> nonzerob y = true.
Proof.
  unfold nonzerob; destruct (Qeq_bool y 0) eqn:E; simpl; auto.
  apply Qeq_bool_iff in E; intros H.
  assert (Hz : Qeq_bool (x * y) 0 = true) by (apply Qeq_bool_iff; rewrite E; ring).
  rewrite Hz in H; discriminate.
Qed.

Lemma nonzerob_mult_l (x y : Q) :
  nonzerob x = true -> nonzerob (x * y) = nonzerob y.
Proof.
  unfold nonzerob; intros Hx.
  destruct (Qeq_bool y 0) eqn:Ey, (Qeq_bool (x * y) 0) eqn:Exy; simpl; auto.
  - apply Qeq_bool_iff in Ey.
    assert (Hz : Qeq_bool (x * y) 0 = true) by (apply Qeq_bool_iff; rewrite Ey; ring).
    congruence.
  - apply Qeq_bool_iff in Exy; apply Qmult_integral in Exy.
    destruct Exy as [Hx0|Hy0].
    + apply Qeq_bool_iff in Hx0; rewrite Hx0 in Hx; discriminate.
    + apply Qeq_bool_iff in Hy0; congruence.
Qed.

Lemma count_zip_le (l m : list Q) :
  length (filter nonzerob (zipWith Qmult l m)) <= length (filter nonzerob m).
Proof.
  revert m; induction l as [|x l IH]; intros [|y m]; simpl; try lia.
  specialize (IH m).
  destruct (nonzerob (x * y)) eqn:E.
  - rewrite (nonzerob_mult_r _ _ E); simpl; lia.
  - destruct (nonzerob y); simpl; lia.
Qed.

Lemma count_zip_eq (l m : list Q) :
  Forall (fun x => ~ (x == 0)%Q) l -> length l = length m ->
  length (filter nonzerob (zipWith Qmult l m)) = length (filter nonzerob m).
Proof.
  intros H; revert m; induction H as [|x l Hx _ IH]; intros [|y m] Hl;
    simpl in *; try discriminate; auto.
  rewrite nonzerob_mult_l.
  - destruct (nonzerob y); simpl; rewrite IH by lia; reflexivity.
  - unfold nonzerob; destruct (Qeq_bool x 0) eqn:E; auto.
    apply Qeq_bool_iff in E; contradiction.
Qed.

Lemma count_set_nth (i : nat) (l : list Q) :
  i < length l -> nonzerob (nth i l 0%Q) = false ->
  length (filter nonzerob (set_nth i 1%Q l)) = S (length (filter nonzerob l)).
Proof.
  revert i; induction l as [|y l IH]; intros [|i] Hi Hz; simpl in *; try lia.
  - rewrite Hz; reflexivity.
  - destruct (nonzerob y); simpl; rewrite IH by (auto; lia); reflexivity.
Qed.

Lemma count_index_put (idx : list nat) (l : list Q) :
  NoDup idx ->
  (forall i, In i idx -> i < length l /\ nonzerob (nth i l 0%Q) = false) ->
  length (filter nonzerob (index_put idx 1%Q l))
    = length (filter nonzerob l) + length idx.
Proof.
  unfold index_put; intros Hnd; revert l.
  induction Hnd as [|i idx Hi Hnd IH]; intros l H; simpl; [lia|].
  destruct (H i) as [Hlt Hz]; auto with datatypes.
  rewrite IH.
  - rewrite count_set_nth by assumption; lia.
  - intros j Hj; destruct (H j) as [Hjl Hjz]; auto with datatypes.
    rewrite set_nth_length; split; [assumption|].
    rewrite nth_set_nth by assumption.
    destruct (Nat.eqb_spec j i) as [->|_]; [contradiction|assumption].
Qed.

Lemma count_repeat_zero (n : nat) : length (filter nonzerob (repeat 0%Q n)) = 0.
Proof.
  induction n; simpl; auto.
Qed.

(** The number of ones of the mask written through [k] distinct indices. *)
Lemma count_mask (kept : list nat) (n : nat) :
  NoDup kept -> (forall i, In i kept -> i < n) ->
  length (filter nonzerob (index_put kept 1%Q (repeat 0%Q n))) = length kept.
Proof.
  intros Hnd Hr; rewrite count_index_put, count_repeat_zero; auto.
  intros i Hi; rewrite repeat_length; split; auto.
  rewrite nth_repeat_lt by auto; reflexivity.
Qed.

(** C4 (fails on the code): pruning [[3, 0, 0, 0]] at density 1/2 keeps
    [floor(1/2 * 4) = 2] positions, but only one element of the result is not
    zero. *)
Lemma magnitude_based_pruning_zero_kept :
  let t := mkT [4] [3; 0; 0; 0]%Q in
  exists r,
    magnitude_based_pruning t (1 # 2) = Ok r /\
    Qfloor ((1 # 2) * inject_Z (Z.of_nat (numel t))) = 2%Z /\
    count_nonzero r = 1.
Proof.
  eexists; split; [vm_compute; reflexivity|]; split; reflexivity.
Qed.

(** C4 (amended): for density in (0,1), [magnitude_based_pruning] keeps a set
    of exactly [floor(density * element_count)] positions and zeroes every
    other position; the absolute value at every kept position is at least
    the absolute value at every zeroed position; the result has at most
    [floor(density * element_count)] non-zero elements, and exactly that many
    when no element of the input is zero. *)
Theorem magnitude_based_pruning_keeps_topk (t : Tensor Q) (density : Q) :
  wf t -> (0 < density)%Q -> (density < 1)%Q ->
  let k := Qfloor (density * inject_Z (Z.of_nat (numel t))) in
  exists r kept,
    magnitude_based_pruning t density = Ok r /\
    shape r = shape t /\
    NoDup kept /\ Z.of_nat (length kept) = k /\
    (forall i, In i kept -> i < numel t) /\
    (forall i, i < numel t ->
       (nth i (data r) 0 == if mem i kept then nth i (data t) 0 else 0)%Q) /\
    (forall i j, In i kept -> j < numel t -> ~ In j kept ->
       (Qabs (nth j (data t) 0) <= Qabs (nth i (data t) 0))%Q) /\
    (Z.of_nat (count_nonzero r) <= k)%Z /\
    (Forall (fun x => ~ (x == 0)%Q) (data t) -> Z.of_nat (count_nonzero r) = k).
Proof.
  intros W H0 H1 k.
  destruct (@magnitude_based_pruning_kept t density W) as
    (r & kept & E & Hs & Hd & Hnd & Hk & Hr & Htop);
    try (apply Qlt_le_weak; assumption).
  exists r, kept; repeat split; auto.
  - intros i Hi; rewrite Hd.
    rewrite (nth_zipWith Qmult _ _ 0%Q 0%Q 0%Q).
    + rewrite nth_index_put by (rewrite repeat_length; assumption).
      rewrite nth_repeat_lt by assumption.
      destruct (mem i kept); ring.
    + rewrite W; assumption.
    + rewrite index_put_length, repeat_length; assumption.
  - unfold count_nonzero; rewrite Hd.
    pose proof (count_zip_le (data t) (index_put kept 1%Q (repeat 0%Q (numel t)))) as Hle.
    rewrite count_mask in Hle by assumption.
    fold k in Hk; lia.
  - intros Hnz; unfold count_nonzero; rewrite Hd.
    rewrite count_zip_eq, count_mask; auto.
    rewrite index_put_length, repeat_length; exact W.
Qed.

Lemma magnitude_based_pruning_keeps_topk_witness :
  let t := mkT [4] [1; 2; -3; 4]%Q in
  let density := (1 # 2)%Q in
  let k := Qfloor (density * inject_Z (Z.of_nat (numel t))) in
  exists r kept,
    magnitude_based_pruning t density = Ok r /\
    shape r = shape t /\
    NoDup kept /\ Z.of_nat (length kept) = k /\
    (forall i, In i kept -> i < numel t) /\
    (forall i, i < numel t ->
       (nth i (data r) 0 == if mem i kept then nth i (data t) 0 else 0)%Q) /\
    (forall i j, In i kept -> j < numel t -> ~ In j kept ->
       (Qabs (nth j (data t) 0) <= Qabs (nth i (data t) 0))%Q) /\
    (Z.of_nat (count_nonzero r) <= k)%Z /\
    (Forall (fun x => ~ (x == 0)%Q) (data t) -> Z.of_nat (count_nonzero r) = k).
Proof.
  apply (@magnitude_based_pruning_keeps_topk (mkT [4] [1; 2; -3; 4]%Q) (1 # 2));
    reflexivity.
Defined.

(* ------------------------------------------------------------------ *)
(** ** Energy weights *)

Lemma Qltb_lt (x y : Q) : Qltb x y = true <-> (x < y)%Q.
Proof.
  unfold Qltb; destruct (Qle_bool y x) eqn:E; simpl; split; intros H;
    try discriminate; auto.
  - apply Qle_bool_iff in E; exfalso; exact (Qlt_not_le _ _ H E).
  - destruct (Qlt_le_dec x y) as [Hlt|Hle]; auto.
    apply Qle_bool_iff in Hle; congruence.
Qed.

Lemma Qsum_map_div (c : Q) (l : list Q) :
  (Qsum (map (fun e => e / c) l) == Qsum l / c)%Q.
Proof.
  induction l as [|x l IH]; simpl.
  - unfold Qdiv; ring.
  - fold (Qsum (map (fun e => (e / c)%Q) l)); fold (Qsum l).
    rewrite IH; unfold Qdiv; ring.
Qed.

Lemma mean_tail_energies (t : Tensor Q) n d s :
  shape t = n :: d :: s ->
  mean_tail (tmap (fun x => (x ^ 2)%Q) t) = mkT [n] (task_energies t).
Proof.
  intros Hs; unfold mean_tail, task_energies, rows; cbn [tmap shape data].
  rewrite Hs, chunks_map, map_map; reflexivity.
Qed.

(** C8: on a stacked tensor of [n] non-empty task tensors, [sce_weight]
    returns a vector of length [n]: the per-task mean-squared energies divided
    by their sum, whose entries then sum to 1; unless the absolute value of
    that sum is below [1e-6], when every entry is [1/n]. *)
Theorem sce_weight_normalised (t : Tensor Q) n d s :
  wf t -> shape t = n :: d :: s -> 0 < numel_of (d :: s) ->
  let energy := task_energies t in
  let total := Qsum energy in
  exists w,
    sce_weight t = Ok w /\ shape w = [n] /\ length (data w) = n /\
    ((Qabs total < eps)%Q ->
       data w = repeat (1 / inject_Z (Z.of_nat n))%Q n) /\
    (~ (Qabs total < eps)%Q ->
       data w = map (fun e => (e / total)%Q) energy /\ (Qsum (data w) == 1)%Q).
Proof.
  intros W Hs HM energy total.
  assert (Hlen : length energy = n).
  { unfold energy, task_energies, rows; rewrite Hs, length_map; apply chunks_length. }
  unfold sce_weight; rewrite (mean_tail_energies t Hs); cbn [data shape].
  fold energy; fold total.
  destruct (Qltb (Qabs total) eps) eqn:E.
  - apply Qltb_lt in E.
    eexists; split; [reflexivity|].
    unfold ones_like, full_like, numel; cbn [tmap shape data numel_of fold_right].
    rewrite Nat.mul_1_r, map_repeat, repeat_length.
    repeat split; auto; intros; contradiction.
  - assert (Hnlt : ~ (Qabs total < eps)%Q)
      by (intros H; apply Qltb_lt in H; congruence).
    eexists; split; [reflexivity|]; cbn [tmap shape data].
    rewrite length_map.
    repeat split; auto; try (intros; contradiction).
    rewrite Qsum_map_div; fold total.
    unfold Qdiv; apply Qmult_inv_r.
    intros Hz; apply Hnlt; rewrite Hz; reflexivity.
Qed.

Lemma sce_weight_normalised_witness :
  let t := mkT [2; 2] [1; 1; 3; 3]%Q in
  let energy := task_energies t in
  let total := Qsum energy in
  exists w,
    sce_weight t = Ok w /\ shape w = [2] /\ length (data w) = 2 /\
    ((Qabs total < eps)%Q ->
       data w = repeat (1 / inject_Z (Z.of_nat 2))%Q 2) /\
    (~ (Qabs total < eps)%Q ->
       data w = map (fun e => (e / total)%Q) energy /\ (Qsum (data w) == 1)%Q).
Proof.
  apply (@sce_weight_normalised (mkT [2; 2] [1; 1; 3; 3]%Q) 2 2 []);
    [reflexivity | reflexivity | simpl; lia].
Defined.

(* ------------------------------------------------------------------ *)
(** ** Shapes through [sce] *)

Lemma bop_shape {A B C} (f : A -> B -> C) (a : Tensor A) (b : Tensor B) s :
  broadcast_shapes (shape a) (shape b) = Some s ->
  exists r, bop f a b = Ok r /\ shape r = s.
Proof.
  intros H; unfold bop; rewrite H; eexists; split; reflexivity.
Qed.

Lemma broadcast_shapes_unsqueezed (s : list nat) :
  broadcast_shapes s (1 :: s) = Some (1 :: s).
Proof.
  unfold broadcast_shapes, pad_shape; cbn [length].
  replace (Nat.max (length s) (S (length s))) with (S (length s)) by lia.
  replace (S (length s) - S (length s)) with 0 by lia.
  replace (S (length s) - length s) with 1 by lia.
  cbn [repeat app]; apply broadcast_aligned_same.
Qed.

Lemma broadcast_aligned_ones (s : list nat) :
  broadcast_aligned (repeat 1 (length s)) s = Some s.
Proof.
  induction s as [|a s IH]; simpl; auto.
  rewrite IH; destruct a as [|[|a]]; reflexivity.
Qed.

Lemma broadcast_shapes_ones (s : list nat) :
  broadcast_shapes (repeat 1 (length s)) s = Some s.
Proof.
  unfold broadcast_shapes, pad_shape; rewrite repeat_length, Nat.max_id, Nat.sub_diag.
  apply broadcast_aligned_ones.
Qed.

Lemma broadcast_shapes_per_task (n : nat) (s : list nat) :
  broadcast_shapes (n :: repeat 1 (length s)) (n :: s) = Some (n :: s).
Proof.
  unfold broadcast_shapes, pad_shape; cbn [length].
  rewrite repeat_length, Nat.max_id, Nat.sub_diag.
  cbn [repeat app broadcast_aligned].
  rewrite broadcast_aligned_ones, Nat.eqb_refl; reflexivity.
Qed.

Lemma broadcast_shapes_row (n : nat) (s : list nat) :
  broadcast_shapes (n :: s) (1 :: s) = Some (n :: s).
Proof.
  unfold broadcast_shapes, pad_shape; cbn [length].
  rewrite Nat.max_id, Nat.sub_diag.
  cbn [repeat app broadcast_aligned].
  rewrite broadcast_aligned_same.
  destruct (n =? 1) eqn:E; [|reflexivity].
  apply Nat.eqb_eq in E; subst; reflexivity.
Qed.

Lemma shape_sum_dim0 (t : Tensor Q) n s :
  shape t = n :: s -> shape (sum_dim0 t) = s.
Proof.
  intros H; unfold sum_dim0; rewrite H; reflexivity.
Qed.

Lemma all_shapes_Forall {A} (s : list nat) (ts : list (Tensor A)) :
  Forall (fun t => shape t = s) ts -> all_shapes s ts = true.
Proof.
  unfold all_shapes; induction 1 as [|t ts Ht _ IH]; simpl; auto.
  destruct (list_eq_dec Nat.eq_dec (shape t) s); [assumption|contradiction].
Qed.

Lemma stack_common_shape {A} (s : list nat) (ts : list (Tensor A)) :
  ts <> [] -> Forall (fun t => shape t = s) ts ->
  stack ts = Ok (mkT (length ts :: s) (concat (map data ts))).
Proof.
  intros Hne Hall; destruct ts as [|t ts]; [contradiction|].
  unfold stack.
  assert (Ht : shape t = s) by (inversion Hall; assumption).
  rewrite Ht, all_shapes_Forall by assumption; reflexivity.
Qed.

Lemma majority_sign_mask_shape (t : Tensor Q) n s (method : string) :
  shape t = n :: s ->
  method = "total"%string \/ method = "frequency"%string ->
  exists mask, calculate_majority_sign_mask t method = Ok mask /\ shape mask = n :: s.
Proof.
  intros Hs Hm; unfold calculate_majority_sign_mask.
  destruct Hm as [-> | ->]; cbn [String.eqb Ascii.eqb Bool.eqb bind];
    apply bop_shape; cbn [tmap shape];
    rewrite (@shape_sum_dim0 _ n s) by (cbn [tmap shape]; assumption);
    rewrite Hs; apply broadcast_shapes_lead.
Qed.

Lemma sce_weight_shape (t : Tensor Q) n d s :
  shape t = n :: d :: s -> exists w, sce_weight t = Ok w /\ shape w = [n].
Proof.
  intros Hs; unfold sce_weight; rewrite (mean_tail_energies t Hs); cbn [shape data].
  destruct (Qltb _ eps); eexists; split; reflexivity.
Qed.

Lemma shape_iter_unsqueeze_last {A} (j : nat) (t : Tensor A) :
  shape (Nat.iter j unsqueeze_last t) = shape t ++ repeat 1 j.
Proof.
  induction j as [|j IH]; simpl; [rewrite app_nil_r; reflexivity|].
  rewrite IH, <- app_assoc; f_equal.
  change [1] with (repeat 1 1); rewrite <- repeat_app, Nat.add_1_r; reflexivity.
Qed.

Lemma shape_unsqueeze_to {A} (r : nat) (t : Tensor A) :
  shape (unsqueeze_to r t) = shape t ++ repeat 1 (r - dim t).
Proof.
  apply shape_iter_unsqueeze_last.
Qed.

(** The steps of [sce] after the sparsification, on a stacked tensor of rank
    at least 2: the result has the shape of the stacked tensor without its
    leading axis. *)
Lemma sce_merge_shape (tt : Tensor Q) n d s (method : string) :
  shape tt = n :: d :: s ->
  method = "total"%string \/ method = "frequency"%string ->
  exists r,
    (erase_mask <- calculate_majority_sign_mask tt method ;;
     tv_weights <- sce_weight tt ;;
     let tv_weights := unsqueeze_to (dim tt) tv_weights in
     erased_weights <- bop Qmult tv_weights (tmap b2q erase_mask) ;;
     weighted <- bop Qmult tt erased_weights ;;
     let merged_tv := sum_dim0 weighted in
     let final_tv := bop Qdiv merged_tv (clamp_min eps (sum_dim0 erased_weights)) in
     final_tv) = Ok r /\
    shape r = d :: s.
Proof.
  intros Hs Hm.
  destruct (majority_sign_mask_shape tt Hs Hm) as (mask & -> & Hmask).
  destruct (sce_weight_shape tt Hs) as (w & -> & Hw).
  cbn [bind].
  assert (Htv : shape (unsqueeze_to (dim tt) w) = n :: repeat 1 (length (d :: s))).
  { rewrite shape_unsqueeze_to, Hw; unfold dim; rewrite Hs, Hw.
    cbn [length app]; f_equal; f_equal; lia. }
  destruct (@bop_shape _ _ _ Qmult (unsqueeze_to (dim tt) w) (tmap b2q mask) (n :: d :: s))
    as (erased & -> & He).
  { cbn [tmap shape]; rewrite Htv, Hmask; apply broadcast_shapes_per_task. }
  cbn [bind].
  destruct (@bop_shape _ _ _ Qmult tt erased (n :: d :: s)) as (weighted & -> & Hwt).
  { rewrite Hs, He; apply broadcast_shapes_same. }
  cbn [bind].
  apply bop_shape; cbn [clamp_min tmap shape].
  rewrite (shape_sum_dim0 _ Hwt), (shape_sum_dim0 _ He).
  apply broadcast_shapes_same.
Qed.

(** C2 (fails on the code): for a non-empty list of [N] task tensors of one
    shape [S] and a density [<= 0], [sce] returns a tensor of the stacked
    shape [N :: S], not of shape [S]: on that path [sce_mask] returns a mask of
    the shape of the stacked tensor, which [sce] unsqueezes and broadcasts. *)
Theorem sce_density_zero_shape (task_tensors : list (Tensor Q)) (S : list nat)
  (density : Q) (method : string) :
  task_tensors <> [] -> Forall (fun t => shape t = S) task_tensors ->
  (density <= 0)%Q ->
  method = "total"%string \/ method = "frequency"%string ->
  exists r,
    sce task_tensors density method = Ok r /\
    shape r = length task_tensors :: S /\ shape r <> S.
Proof.
  intros Hne Hall Hd Hm; unfold sce.
  rewrite (stack_common_shape Hne Hall); cbn [bind].
  set (st := mkT (length task_tensors :: S) (concat (map data task_tensors))).
  assert (Hlt : Qltb density 1 = true).
  { apply Qltb_lt, Qle_lt_trans with 0%Q; [assumption|reflexivity]. }
  rewrite Hlt; unfold sce_mask.
  apply Qle_bool_iff in Hd; rewrite Hd; cbn [bind].
  destruct (@bop_shape _ _ _ Qmult st (unsqueeze0 (zeros_like st))
              (1 :: length task_tensors :: S)) as (tt & -> & Htt).
  { apply broadcast_shapes_unsqueezed. }
  cbn [bind].
  destruct (sce_merge_shape tt Htt Hm) as (r & E & Hr).
  exists r; repeat split; auto.
  rewrite Hr; intros H; apply (f_equal (@length nat)) in H; simpl in H; lia.
Qed.

Lemma sce_density_zero_shape_witness :
  let task_tensors := [mkT [2] [1; 2]%Q; mkT [2] [3; 4]%Q] in
  exists r,
    sce task_tensors 0 "total" = Ok r /\
    shape r = length task_tensors :: [2] /\ shape r <> [2].
Proof.
  apply (@sce_density_zero_shape [mkT [2] [1; 2]%Q; mkT [2] [3; 4]%Q] [2] 0 "total").
  - discriminate.
  - repeat constructor.
  - discriminate.
  - left; reflexivity.
Defined.

(** Without sparsification ([density >= 1]) the result of [sce] has the shape
    of one task tensor. *)
Lemma sce_density_one_shape (task_tensors : list (Tensor Q)) (d : nat) (s : list nat)
  (density : Q) (method : string) :
  task_tensors <> [] -> Forall (fun t => shape t = d :: s) task_tensors ->
  (1 <= density)%Q ->
  method = "total"%string \/ method = "frequency"%string ->
  exists r, sce task_tensors density method = Ok r /\ shape r = d :: s.
Proof.
  intros Hne Hall Hd Hm; unfold sce.
  rewrite (stack_common_shape Hne Hall); cbn [bind].
  assert (Hlt : Qltb density 1 = false).
  { unfold Qltb; apply Qle_bool_iff in Hd; rewrite Hd; reflexivity. }
  rewrite Hlt; cbn [bind].
  apply sce_merge_shape with (n := length task_tensors); auto.
Qed.

(** The value of [sce] at density 0 on two tensors of shape [2]. *)
Lemma sce_density_zero_example :
  sce [mkT [2] [1; 2]%Q; mkT [2] [3; 4]%Q] 0 "total"
    = Ok (mkT [2; 2] [0; 0; 0; 0]%Q).
Proof.
  vm_compute; reflexivity.
Qed.

Lemma shape_var_dim0 (t : Tensor Q) n s : shape t = n :: s -> shape (var_dim0 t) = s.
Proof.
  intros H; unfold var_dim0; rewrite H; reflexivity.
Qed.

Lemma count_nonzero_le (t : Tensor Q) : count_nonzero t <= length (data t).
Proof.
  apply filter_length_le.
Qed.

(** The number of positions [sce_mask] selects lies between 0 and the number
    of elements of the variance tensor, so its [topk] call does not raise. *)
Lemma sce_mask_count_bounds (var : Tensor Q) (density : Q) :
  (0 <= density)%Q -> (density <= 1)%Q ->
  (0 <= py_int (inject_Z (Z.of_nat (count_nonzero var)) * density)
     <= Z.of_nat (length (data var)))%Z.
Proof.
  intros H0 H1.
  assert (Hc : (0 <= inject_Z (Z.of_nat (count_nonzero var)))%Q)
    by (change 0%Q with (inject_Z 0); rewrite <- Zle_Qle; lia).
  rewrite py_int_floor by (apply Qmult_le_0_compat; assumption).
  rewrite (Qfloor_comp _ _ (Qmult_comm _ _)).
  pose proof (keep_count_bounds (count_nonzero var) H0 H1).
  pose proof (count_nonzero_le var); lia.
Qed.

(** [sce_mask] for a density in (0,1): the mask has the shape of one task
    tensor when some position is selected, and the shape of the stacked
    tensor when none is. *)
Lemma sce_mask_shape (st : Tensor Q) n s (density : Q) :
  shape st = n :: s -> (0 < density)%Q -> (density < 1)%Q ->
  let k := py_int (inject_Z (Z.of_nat (count_nonzero (var_dim0 st))) * density) in
  exists mask,
    sce_mask st density = Ok mask /\
    shape mask = if (k =? 0)%Z then n :: s else s.
Proof.
  intros Hs H0 H1 k; unfold sce_mask.
  assert (E0 : Qle_bool density 0 = false).
  { destruct (Qle_bool density 0) eqn:E; auto.
    apply Qle_bool_iff in E; exfalso; exact (Qlt_not_le _ _ H0 E). }
  assert (E1 : Qle_bool 1 density = false).
  { destruct (Qle_bool 1 density) eqn:E; auto.
    apply Qle_bool_iff in E; exfalso; exact (Qlt_not_le _ _ H1 E). }
  rewrite E0, E1; fold k.
  destruct (k =? 0)%Z eqn:Ek.
  - eexists; split; [reflexivity|]; cbn [zeros_like full_like shape]; assumption.
  - pose proof (@sce_mask_count_bounds (var_dim0 st) density
                  (Qlt_le_weak _ _ H0) (Qlt_le_weak _ _ H1)) as Hk.
    fold k in Hk.
    destruct (@topk_spec (map Qabs (data (var_dim0 st))) (Z.to_nat k))
      as (kept & Etop & _); [rewrite length_map; lia|].
    rewrite Z2Nat.id in Etop by lia.
    cbn [flatten tmap data]; rewrite Etop; cbn [bind snd].
    eexists; split; [reflexivity|].
    cbn [zeros_like full_like shape]; apply (shape_var_dim0 _ Hs).
Qed.

(** X18: [sce] for a density in (0,1): the result has the shape of one task tensor
    exactly when [sce_mask] selects at least one position. *)
Lemma sce_density_mid_shape (task_tensors : list (Tensor Q)) (d : nat) (s : list nat)
  (density : Q) (method : string) :
  task_tensors <> [] -> Forall (fun t => shape t = d :: s) task_tensors ->
  (0 < density)%Q -> (density < 1)%Q ->
  method = "total"%string \/ method = "frequency"%string ->
  let st := mkT (length task_tensors :: d :: s) (concat (map data task_tensors)) in
  let k := py_int (inject_Z (Z.of_nat (count_nonzero (var_dim0 st))) * density) in
  exists r,
    sce task_tensors density method = Ok r /\
    shape r = if (k =? 0)%Z then length task_tensors :: d :: s else d :: s.
Proof.
  intros Hne Hall H0 H1 Hm st k; unfold sce.
  rewrite (stack_common_shape Hne Hall); cbn [bind]; fold st.
  assert (Hlt : Qltb density 1 = true) by (apply Qltb_lt; assumption).
  rewrite Hlt.
  destruct (@sce_mask_shape st (length task_tensors) (d :: s) density)
    as (mask & -> & Hmask); auto.
  fold k in Hmask; cbn [bind].
  destruct (k =? 0)%Z.
  - destruct (@bop_shape _ _ _ Qmult st (unsqueeze0 mask)
                (1 :: length task_tensors :: d :: s)) as (tt & -> & Htt).
    { cbn [unsqueeze0 shape]; rewrite Hmask; apply broadcast_shapes_unsqueezed. }
    cbn [bind]; apply (sce_merge_shape tt Htt Hm).
  - destruct (@bop_shape _ _ _ Qmult st (unsqueeze0 mask)
                (length task_tensors :: d :: s)) as (tt & -> & Htt).
    { cbn [unsqueeze0 shape]; rewrite Hmask; apply broadcast_shapes_row. }
    cbn [bind]; apply (sce_merge_shape tt Htt Hm).
Qed.

(* ------------------------------------------------------------------ *)
(** ** The weight broadcaster on every input *)

Lemma numel_of_app_ones (s : list nat) (k : nat) :
  numel_of (s ++ repeat 1 k) = numel_of s.
Proof.
  induction s as [|a s IH]; simpl.
  - induction k as [|k IH]; simpl; auto. rewrite IH; reflexivity.
  - rewrite IH; reflexivity.
Qed.

(** X1: [reshape_weight_task_tensors] raises on no input: it returns the elements
    of the weights unchanged under the shape of the weights followed by as
    many axes of size 1 as the reference tensor has more axes, so the rank of
    the result is the larger of the two ranks. *)
Theorem reshape_weight_never_raises {A} (task_tensors : Tensor A) (weights : Tensor Q) :
  exists r,
    reshape_weight_task_tensors task_tensors weights = Ok r /\
    data r = data weights /\
    shape r = shape weights ++ repeat 1 (dim task_tensors - dim weights) /\
    dim r = Nat.max (dim task_tensors) (dim weights) /\
    numel r = numel weights.
Proof.
  unfold reshape_weight_task_tensors, view, numel.
  rewrite numel_of_app_ones, Nat.eqb_refl.
  eexists; split; [reflexivity|]; cbn [shape data]; repeat split.
  - unfold dim; cbn [shape]; rewrite length_app, repeat_length; unfold dim; lia.
  - apply numel_of_app_ones.
Qed.

(* ------------------------------------------------------------------ *)
(** ** Random pruning, element by element *)

Lemma nth_map_seq {B} (f : nat -> B) (n i : nat) (d : B) :
  i < n -> nth i (map f (seq 0 n)) d = f i.
Proof.
  intros Hi; rewrite (nth_indep _ d (f 0)) by (rewrite length_map, length_seq; exact Hi).
  rewrite map_nth, seq_nth by assumption; reflexivity.
Qed.

Lemma Qltb_false_le (x y : Q) : (y <= x)%Q -> Qltb x y = false.
Proof.
  intros H; unfold Qltb; apply Qle_bool_iff in H; rewrite H; reflexivity.
Qed.

Lemma random_pruning_elements (u : nat -> Q) (t : Tensor Q) (density : Q) (rescale : bool) :
  wf t -> (0 <= density)%Q -> (density <= 1)%Q ->
  exists r,
    random_pruning u t density rescale = Ok r /\
    shape r = shape t /\ wf r /\
    forall i, i < numel t ->
      nth i (data r) 0%Q = (nth i (data t) 0 * b2q (Qltb (u i) density))%Q.
Proof.
  intros W H0 H1; unfold random_pruning, bernoulli.
  rewrite (Qltb_false_le H0), (Qltb_false_le H1); cbn [orb bind].
  set (m := mkT (shape t) (map (fun i => b2q (Qltb (u i) density)) (seq 0 (numel t)))).
  assert (Wm : wf m)
    by (unfold wf, numel, m; cbn [shape data]; rewrite length_map, length_seq; reflexivity).
  rewrite (@bop_same_shape _ _ _ Qmult t m eq_refl W Wm); cbn [bind].
  exists (mkT (shape t) (zipWith Qmult (data t) (data m))); split.
  - destruct rescale; reflexivity.
  - split; [reflexivity|]; split; [apply wf_zip; auto|].
    intros i Hi; cbn [data].
    rewrite (nth_zipWith Qmult _ _ 0%Q 0%Q 0%Q).
    + unfold m; cbn [data]; rewrite nth_map_seq by assumption; reflexivity.
    + rewrite W; assumption.
    + unfold m; cbn [data]; rewrite length_map, length_seq; assumption.
Qed.

(** X2: For a density in [0,1], with or without [rescale], [random_pruning]
    returns a tensor of the shape of its input in which an element whose draw
    is below the density keeps its value and every other element is 0. *)
Theorem random_pruning_keeps_or_zeroes (u : nat -> Q) (t : Tensor Q) (density : Q)
  (rescale : bool) :
  wf t -> (0 <= density)%Q -> (density <= 1)%Q ->
  exists r,
    random_pruning u t density rescale = Ok r /\
    shape r = shape t /\ wf r /\
    forall i, i < numel t ->
      ((u i < density)%Q -> (nth i (data r) 0 == nth i (data t) 0)%Q) /\
      ((density <= u i)%Q -> (nth i (data r) 0 == 0)%Q).
Proof.
  intros W H0 H1.
  destruct (random_pruning_elements u rescale W H0 H1) as (r & E & Hs & Wr & Hr).
  exists r; split; [|split; [|split]]; auto.
  intros i Hi; rewrite Hr by assumption; split; intros Hu.
  - apply Qltb_lt in Hu; rewrite Hu; simpl; ring.
  - rewrite (Qltb_false_le Hu); simpl; ring.
Qed.

Lemma random_pruning_keeps_or_zeroes_witness :
  let u := fun i : nat => if i =? 1 then (3 # 4)%Q else (1 # 4)%Q in
  let t := mkT [3] [5; 6; 7]%Q in
  exists r,
    random_pruning u t (1 # 2) true = Ok r /\
    shape r = shape t /\ wf r /\
    forall i, i < numel t ->
      ((u i < 1 # 2)%Q -> (nth i (data r) 0 == nth i (data t) 0)%Q) /\
      ((1 # 2 <= u i)%Q -> (nth i (data r) 0 == 0)%Q).
Proof.
  apply (@random_pruning_keeps_or_zeroes
           (fun i : nat => if i =? 1 then (3 # 4)%Q else (1 # 4)%Q)
           (mkT [3] [5; 6; 7]%Q) (1 # 2) true);
    [reflexivity | discriminate | discriminate].
Defined.

(* ------------------------------------------------------------------ *)
(** ** Pruning only zeroes elements *)

Lemma magnitude_based_pruning_elements (t : Tensor Q) (density : Q) :
  wf t -> (0 <= density)%Q -> (density <= 1)%Q ->
  exists r kept,
    magnitude_based_pruning t density = Ok r /\
    shape r = shape t /\ wf r /\
    NoDup kept /\
    Z.of_nat (length kept) = Qfloor (density * inject_Z (Z.of_nat (numel t))) /\
    (forall i, In i kept -> i < numel t) /\
    forall i, i < numel t ->
      nth i (data r) 0%Q
        = (nth i (data t) 0 * (if mem i kept then 1 else 0))%Q.
Proof.
  intros W H0 H1.
  destruct (magnitude_based_pruning_kept W H0 H1)
    as (r & kept & E & Hs & Hd & Hnd & Hk & Hr & _).
  exists r, kept; repeat split; auto.
  - unfold wf, numel; rewrite Hd, Hs, zipWith_length, index_put_length, repeat_length.
    rewrite W; unfold numel; lia.
  - intros i Hi; rewrite Hd.
    rewrite (nth_zipWith Qmult _ _ 0%Q 0%Q 0%Q).
    + rewrite nth_index_put by (rewrite repeat_length; assumption).
      rewrite nth_repeat_lt by assumption; reflexivity.
    + rewrite W; assumption.
    + rewrite index_put_length, repeat_length; assumption.
Qed.

(** X3: With a non-negative density and one of the two known methods, [prune]
    raises nothing and returns a tensor of the shape of its input, each
    element of which is the element of the input or 0: no value is ever
    changed, with or without [rescale]. *)
Theorem prune_only_zeroes (u : nat -> Q) (t : Tensor Q) (density : Q) (m : string)
  (rescale : bool) :
  wf t -> (0 <= density)%Q ->
  m = "magnitude"%string \/ m = "random"%string ->
  exists ws r,
    prune u t density m rescale = (ws, Ok r) /\
    shape r = shape t /\
    forall i, i < numel t ->
      (nth i (data r) 0 == nth i (data t) 0)%Q \/ (nth i (data r) 0 == 0)%Q.
Proof.
  intros W H0 Hm; unfold prune.
  destruct (Qle_bool 1 density) eqn:E1.
  - exists [UserWarning], t; repeat split; auto; intros; left; reflexivity.
  - assert (H1 : (density <= 1)%Q).
    { destruct (Qlt_le_dec density 1) as [Hlt|Hle]; [apply Qlt_le_weak; assumption|].
      apply Qle_bool_iff in Hle; congruence. }
    rewrite (Qltb_false_le H0).
    destruct Hm as [-> | ->]; cbn [String.eqb Ascii.eqb Bool.eqb].
    + destruct (magnitude_based_pruning_elements W H0 H1)
        as (r & kept & E & Hs & _ & _ & _ & _ & Hr).
      exists [], r; rewrite E; repeat split; auto.
      intros i Hi; rewrite Hr by assumption.
      destruct (mem i kept); [left|right]; ring.
    + destruct (random_pruning_elements u rescale W H0 H1) as (r & E & Hs & _ & Hr).
      exists [], r; rewrite E; repeat split; auto.
      intros i Hi; rewrite Hr by assumption.
      destruct (Qltb (u i) density); [left|right]; simpl; ring.
Qed.

Lemma prune_only_zeroes_witness :
  let t := mkT [4] [1; 2; -3; 4]%Q in
  exists ws r,
    prune (fun _ => 0%Q) t (1 # 2) "magnitude" false = (ws, Ok r) /\
    shape r = shape t /\
    forall i, i < numel t ->
      (nth i (data r) 0 == nth i (data t) 0)%Q \/ (nth i (data r) 0 == 0)%Q.
Proof.
  apply (@prune_only_zeroes (fun _ => 0%Q) (mkT [4] [1; 2; -3; 4]%Q) (1 # 2)
           "magnitude" false);
    [reflexivity | discriminate | left; reflexivity].
Defined.

Lemma full_range_kept (kept : list nat) (n : nat) :
  NoDup kept -> length kept = n -> (forall i, In i kept -> i < n) ->
  forall i, i < n -> In i kept.
Proof.
  intros Hnd Hl Hr i Hi.
  apply (@NoDup_length_incl nat kept (seq 0 n)); auto.
  - rewrite length_seq; lia.
  - intros j Hj; apply in_seq; specialize (Hr j Hj); lia.
  - apply in_seq; lia.
Qed.

Lemma mem_true (i : nat) (idx : list nat) : In i idx -> mem i idx = true.
Proof.
  intros H; unfold mem; apply existsb_exists.
  exists i; split; [assumption|apply Nat.eqb_refl].
Qed.

(** X4: The two ends of the density range of [magnitude_based_pruning]: at
    density 0 every element of the result is 0, and at density 1 (reached by
    a direct call only, [prune] returns earlier) the result is the input. *)
Theorem magnitude_based_pruning_extremes (t : Tensor Q) :
  wf t ->
  (exists r, magnitude_based_pruning t 0 = Ok r /\ shape r = shape t /\
             Forall (fun x => (x == 0)%Q) (data r)) /\
  (exists r, magnitude_based_pruning t 1 = Ok r /\ teq r t).
Proof.
  intros W; split.
  - destruct (@magnitude_based_pruning_elements t 0 W)
      as (r & kept & E & Hs & Wr & _ & Hk & _ & Hr); try discriminate.
    exists r; repeat split; auto.
    assert (Hnil : kept = []).
    { rewrite Qmult_0_l in Hk; change (Qfloor 0) with 0%Z in Hk.
      destruct kept; [reflexivity|simpl in Hk; lia]. }
    subst kept; apply Forall_nth; intros i d Hi.
    rewrite (nth_indep _ d 0%Q Hi).
    rewrite Hr by (rewrite Wr in Hi; unfold numel in *; rewrite Hs in Hi; exact Hi).
    simpl; ring.
  - destruct (@magnitude_based_pruning_elements t 1 W)
      as (r & kept & E & Hs & Wr & Hnd & Hk & Hrange & Hr); try discriminate.
    exists r; split; [assumption|]; split; [assumption|].
    assert (Hlen : length kept = numel t).
    { rewrite (Qfloor_comp _ _ (Qmult_1_l _)), Qfloor_Z in Hk; lia. }
    assert (Hlr : length (data r) = numel t)
      by (rewrite Wr; unfold numel; rewrite Hs; reflexivity).
    apply Forall2_Qeq_nth; [rewrite Hlr, W; reflexivity|].
    intros p Hp; rewrite Hlr in Hp; rewrite Hr by assumption.
    rewrite (mem_true _ _ (full_range_kept Hnd Hlen Hrange Hp)); ring.
Qed.

Lemma magnitude_based_pruning_extremes_witness :
  let t := mkT [2; 2] [1; -2; 0; 4]%Q in
  (exists r, magnitude_based_pruning t 0 = Ok r /\ shape r = shape t /\
             Forall (fun x => (x == 0)%Q) (data r)) /\
  (exists r, magnitude_based_pruning t 1 = Ok r /\ teq r t).
Proof.
  apply (@magnitude_based_pruning_extremes (mkT [2; 2] [1; -2; 0; 4]%Q)); reflexivity.
Defined.

(* ------------------------------------------------------------------ *)
(** ** The sign consensus by frequency *)

(** X6: With method "frequency" the majority sign at a position is +1 when the
    sum of the signs of all tasks there is at least 0 and -1 otherwise, and
    the mask is true exactly where the sign of an element equals it.  The two
    methods can disagree: on the column [3, -1, -1] the sum of the values is
    positive and the sum of the signs is negative. *)
Theorem majority_sign_mask_frequency :
  (forall (t : Tensor Q) n s, wf t -> shape t = n :: s ->
     exists mask,
       calculate_majority_sign_mask t "frequency" = Ok mask /\
       shape mask = shape t /\ wf mask /\
       forall i p, i < n -> p < numel_of s ->
         get false mask i p
           = Qeq_bool (Qsign (get 0%Q t i p))
               (if Qle_bool 0 (task_sum n (fun j => Qsign (get 0%Q t j p)))
                then 1%Q else (-1)%Q)) /\
  calculate_majority_sign_mask (mkT [3; 1] [3; -1; -1]%Q) "total"
    = Ok (mkT [3; 1] [true; false; false]) /\
  calculate_majority_sign_mask (mkT [3; 1] [3; -1; -1]%Q) "frequency"
    = Ok (mkT [3; 1] [false; true; true]).
Proof.
  split; [|split; vm_compute; reflexivity].
  intros t n s W Hs.
  assert (Ws : wf (tmap Qsign t)) by auto using wf_tmap.
  destruct (@wf_sum_dim0 (tmap Qsign t) n s Ws Hs) as [Wm Hm].
  destruct (vote_mask W Hs Wm Hm) as (mask & E & Hsh & Wk & Hget).
  exists mask; unfold calculate_majority_sign_mask; cbn [String.eqb Ascii.eqb Bool.eqb bind].
  rewrite Hs; repeat split; auto.
  intros i p Hi Hp; rewrite Hget by assumption.
  rewrite (@nth_sum_dim0 (tmap Qsign t) n s) by assumption.
  unfold where_nonneg.
  rewrite (@task_sum_ext n (fun j => get 0%Q (tmap Qsign t) j p)
             (fun j => Qsign (get 0%Q t j p))); [reflexivity|].
  intros j Hj; apply (@get_tmap _ _ Qsign t 0%Q n s); assumption.
Qed.

Lemma majority_sign_mask_frequency_witness :
  let t := mkT [3; 1] [3; -1; -1]%Q in
  exists mask,
    calculate_majority_sign_mask t "frequency" = Ok mask /\
    shape mask = shape t /\ wf mask /\
    forall i p, i < 3 -> p < numel_of [1] ->
      get false mask i p
        = Qeq_bool (Qsign (get 0%Q t i p))
            (if Qle_bool 0 (task_sum 3 (fun j => Qsign (get 0%Q t j p)))
             then 1%Q else (-1)%Q).
Proof.
  apply (proj1 majority_sign_mask_frequency (mkT [3; 1] [3; -1; -1]%Q) 3 [1]);
    reflexivity.
Defined.

(* ------------------------------------------------------------------ *)
(** ** One weight per task *)

Lemma numel_of_ones (k : nat) : numel_of (repeat 1 k) = 1.
Proof.
  induction k as [|k IH]; simpl; auto. rewrite IH; reflexivity.
Qed.

Lemma concat_repeat_repeat {A} (x : A) (m a : nat) :
  concat (repeat (repeat x m) a) = repeat x (a * m).
Proof.
  induction a as [|a IH]; simpl; auto.
  rewrite IH, repeat_app; reflexivity.
Qed.

Lemma expand_ones {A} (s : list nat) (x : A) :
  expand (repeat 1 (length s)) s [x] = repeat x (numel_of s).
Proof.
  induction s as [|a s IH]; [reflexivity|].
  cbn [length repeat expand chunks map numel_of fold_right].
  rewrite numel_of_ones; cbn [firstn concat]; rewrite IH, app_nil_r.
  destruct (Nat.eqb_spec 1 a) as [<-|_].
  - simpl; rewrite Nat.add_0_r; reflexivity.
  - apply concat_repeat_repeat.
Qed.

Lemma chunks_one {A} (d : list A) :
  chunks (length d) 1 d = map (fun x => [x]) d.
Proof.
  induction d as [|x d IH]; simpl; auto.
  f_equal; exact IH.
Qed.

Lemma expand_per_task {A} (n : nat) (s : list nat) (d : list A) :
  length d = n ->
  expand (n :: repeat 1 (length s)) (n :: s) d
    = concat (map (fun x => repeat x (numel_of s)) d).
Proof.
  intros <-; cbn [expand].
  rewrite Nat.eqb_refl, numel_of_ones, chunks_one, map_map.
  f_equal; apply map_ext; intros x; apply expand_ones.
Qed.

Lemma broadcast_aligned_ones_r (s : list nat) :
  broadcast_aligned s (repeat 1 (length s)) = Some s.
Proof.
  induction s as [|a s IH]; simpl; auto.
  rewrite IH; destruct a as [|[|a]]; reflexivity.
Qed.

Lemma broadcast_shapes_weights (n : nat) (s : list nat) :
  broadcast_shapes (n :: s) (n :: repeat 1 (length s)) = Some (n :: s).
Proof.
  unfold broadcast_shapes, pad_shape; cbn [length].
  rewrite repeat_length, Nat.max_id, Nat.sub_diag.
  cbn [repeat app broadcast_aligned].
  rewrite broadcast_aligned_ones_r, Nat.eqb_refl; reflexivity.
Qed.

Lemma length_concat_blocks {A} (m : nat) (d : list A) :
  length (concat (map (fun x => repeat x m) d)) = length d * m.
Proof.
  induction d as [|x d IH]; simpl; auto.
  rewrite length_app, repeat_length, IH; reflexivity.
Qed.

Lemma nth_concat_blocks {A} (m i p : nat) (d : list A) (dflt : A) :
  i < length d -> p < m ->
  nth (i * m + p) (concat (map (fun x => repeat x m) d)) dflt = nth i d dflt.
Proof.
  revert i; induction d as [|x d IH]; intros i Hi Hp; simpl in *; [lia|].
  destruct i as [|i]; simpl.
  - rewrite app_nth1 by (rewrite repeat_length; assumption).
    apply nth_repeat_lt; assumption.
  - rewrite app_nth2 by (rewrite repeat_length; lia).
    rewrite repeat_length.
    replace (m + i * m + p - m) with (i * m + p) by lia.
    apply IH; lia.
Qed.

(** The weighting step shared by the strategies: a stacked tensor times a
    vector holding one weight per task. *)
Lemma weighted_stack (st w : Tensor Q) n s :
  wf st -> shape st = n :: s -> wf w -> shape w = [n] ->
  exists w' wt,
    reshape_weight_task_tensors st w = Ok w' /\
    bop Qmult st w' = Ok wt /\
    shape wt = n :: s /\ wf wt /\
    forall i p, i < n -> p < numel_of s ->
      get 0%Q wt i p = (get 0 st i p * nth i (data w) 0)%Q.
Proof.
  intros Wst Hst Ww Hw.
  assert (Hlw : length (data w) = n).
  { unfold wf, numel in Ww; rewrite Hw in Ww; simpl in Ww; lia. }
  pose proof (wf_stacked Wst Hst) as Hlst.
  exists (mkT (n :: repeat 1 (length s)) (data w)).
  exists (mkT (n :: s)
            (zipWith Qmult (data st) (concat (map (fun x => repeat x (numel_of s)) (data w))))).
  split; [|split; [|split; [reflexivity|split]]].
  - unfold reshape_weight_task_tensors, view, numel, dim.
    rewrite Hw, Hst; cbn [length app].
    replace (S (length s) - 1) with (length s) by lia.
    cbn [numel_of fold_right]; rewrite numel_of_ones, Nat.eqb_refl; reflexivity.
  - unfold bop; cbn [shape data]; rewrite Hst, broadcast_shapes_weights.
    cbn [length]; unfold pad_shape; cbn [length]; rewrite repeat_length, Nat.sub_diag.
    cbn [repeat app].
    rewrite expand_same by assumption.
    rewrite expand_per_task by assumption; reflexivity.
  - unfold wf, numel; cbn [shape data numel_of fold_right].
    rewrite zipWith_length, length_concat_blocks, Hlst, Hlw.
    fold (numel_of s); lia.
  - intros i p Hi Hp.
    pose proof (flat_index_bound Hi Hp) as Hb.
    rewrite (@get_flat _ 0%Q _ n s), (@get_flat _ 0%Q st n s); auto; cbn [data].
    rewrite (nth_zipWith Qmult _ _ 0%Q 0%Q 0%Q).
    + rewrite nth_concat_blocks by lia; reflexivity.
    + lia.
    + rewrite length_concat_blocks; lia.
Qed.

(* ------------------------------------------------------------------ *)
(** ** Stacking task tensors *)

Lemma nth_concat_uniform {A} (m i p : nat) (rs : list (list A)) (d : A) :
  Forall (fun r => length r = m) rs -> i < length rs -> p < m ->
  nth (i * m + p) (concat rs) d = nth p (nth i rs []) d.
Proof.
  intros H; revert i; induction H as [|r rs Hr _ IH]; intros i Hi Hp; simpl in *; [lia|].
  destruct i as [|i]; simpl.
  - apply app_nth1; lia.
  - rewrite app_nth2 by lia.
    replace (m + i * m + p - length r) with (i * m + p) by lia.
    apply IH; lia.
Qed.

Lemma length_concat_uniform {A} (m : nat) (rs : list (list A)) :
  Forall (fun r => length r = m) rs -> length (concat rs) = length rs * m.
Proof.
  induction 1 as [|r rs Hr _ IH]; simpl; auto.
  rewrite length_app, IH, Hr; reflexivity.
Qed.

(** A non-empty list of well-formed tensors of one shape stacks into a
    well-formed tensor whose [i]-th sub-tensor is the [i]-th tensor. *)
Lemma stack_elements (ts : list (Tensor Q)) (s : list nat) :
  ts <> [] -> Forall (fun t => wf t /\ shape t = s) ts ->
  exists st,
    stack ts = Ok st /\ shape st = length ts :: s /\ wf st /\
    forall i p, i < length ts -> p < numel_of s -> get 0%Q st i p = elem ts i p.
Proof.
  intros Hne Hall.
  assert (Hsh : Forall (fun t => shape t = s) ts)
    by (eapply Forall_impl; [|exact Hall]; intros t [_ H]; exact H).
  assert (Hlen : Forall (fun r => length r = numel_of s) (map data ts)).
  { apply Forall_map; eapply Forall_impl; [|exact Hall].
    intros t [W H]; unfold wf, numel in W; rewrite H in W; exact W. }
  rewrite (stack_common_shape Hne Hsh).
  eexists; split; [reflexivity|]; split; [reflexivity|]; split.
  - unfold wf, numel; cbn [shape data numel_of fold_right].
    rewrite (length_concat_uniform Hlen), length_map; reflexivity.
  - intros i p Hi Hp.
    rewrite (@get_flat _ 0%Q _ (length ts) s); auto; cbn [data].
    rewrite (nth_concat_uniform 0%Q Hlen) by (rewrite ?length_map; assumption).
    unfold elem; f_equal.
    change (@nil Q) with (data (mkT [] (@nil Q))); apply map_nth.
Qed.

(* ------------------------------------------------------------------ *)
(** ** Task arithmetic, element by element *)

Lemma task_arithmetic_elements (task_tensors : list (Tensor Q)) (weights : Tensor Q)
  (s : list nat) :
  task_tensors <> [] -> Forall (fun t => wf t /\ shape t = s) task_tensors ->
  wf weights -> shape weights = [length task_tensors] ->
  exists r,
    task_arithmetic task_tensors weights = Ok r /\ shape r = s /\ wf r /\
    forall p, p < numel_of s ->
      nth p (data r) 0%Q
        = task_sum (length task_tensors)
            (fun i => (elem task_tensors i p * nth i (data weights) 0)%Q).
Proof.
  intros Hne Hall Ww Hw.
  destruct (stack_elements Hne Hall) as (st & Est & Hst & Wst & Hget).
  destruct (weighted_stack Wst Hst Ww Hw) as (w' & wt & Ew & Eb & Hwt & Wwt & Hel).
  unfold task_arithmetic; rewrite Est; cbn [bind]; rewrite Ew; cbn [bind].
  rewrite Eb; cbn [bind].
  destruct (wf_sum_dim0 Wwt Hwt) as [Wr Hr].
  eexists; split; [reflexivity|]; split; [assumption|]; split; [assumption|].
  intros p Hp; rewrite (@nth_sum_dim0 wt (length task_tensors) s) by assumption.
  apply task_sum_ext; intros i Hi.
  rewrite Hel, Hget by assumption; reflexivity.
Qed.

(** X8: For [N >= 1] task tensors of one shape and a vector of [N] weights,
    [task_arithmetic] returns a tensor of that shape whose element at each
    position is the sum over the tasks of the task's element times the task's
    weight. *)
Theorem task_arithmetic_weighted_sum (task_tensors : list (Tensor Q)) (weights : Tensor Q)
  (s : list nat) :
  task_tensors <> [] -> Forall (fun t => wf t /\ shape t = s) task_tensors ->
  wf weights -> shape weights = [length task_tensors] ->
  exists r,
    task_arithmetic task_tensors weights = Ok r /\ shape r = s /\ wf r /\
    forall p, p < numel_of s ->
      nth p (data r) 0%Q
        = task_sum (length task_tensors)
            (fun i => (elem task_tensors i p * nth i (data weights) 0)%Q).
Proof.
  intros Hne Hall Ww Hw; exact (task_arithmetic_elements Hne Hall Ww Hw).
Qed.

Lemma task_arithmetic_weighted_sum_witness :
  let task_tensors := [mkT [4] [1; 2; -3; 4]%Q; mkT [4] [1; -2; 3; -4]%Q] in
  let weights := mkT [2] [1 # 2; 1 # 2]%Q in
  exists r,
    task_arithmetic task_tensors weights = Ok r /\ shape r = [4] /\ wf r /\
    forall p, p < numel_of [4] ->
      nth p (data r) 0%Q
        = task_sum (length task_tensors)
            (fun i => (elem task_tensors i p * nth i (data weights) 0)%Q).
Proof.
  apply (@task_arithmetic_weighted_sum
           [mkT [4] [1; 2; -3; 4]%Q; mkT [4] [1; -2; 3; -4]%Q]
           (mkT [2] [1 # 2; 1 # 2]%Q) [4]).
  - discriminate.
  - repeat constructor.
  - reflexivity.
  - reflexivity.
Defined.

(* ------------------------------------------------------------------ *)
(** ** The sparsifying strategies at the ends of the density range *)

Lemma prune_no_pruning (u : nat -> Q) (t : Tensor Q) (density : Q) (m : string)
  (rescale : bool) :
  (1 <= density)%Q -> prune u t density m rescale = ([UserWarning], Ok t).
Proof.
  intros H; unfold prune; apply Qle_bool_iff in H; rewrite H; reflexivity.
Qed.

Lemma prune_negative (u : nat -> Q) (t : Tensor Q) (density : Q) (m : string)
  (rescale : bool) :
  (density < 0)%Q -> prune u t density m rescale = ([], Raise ValueError).
Proof.
  intros H; unfold prune.
  assert (E : Qle_bool 1 density = false).
  { destruct (Qle_bool 1 density) eqn:E; auto.
    apply Qle_bool_iff in E; exfalso.
    apply (Qlt_irrefl density), Qlt_le_trans with 0%Q; [assumption|].
    apply Qle_trans with 1%Q; [discriminate|assumption]. }
  rewrite E; apply Qltb_lt in H; rewrite H; reflexivity.
Qed.

Lemma prune_each_no_pruning (us : nat -> nat -> Q) (i : nat) (ts : list (Tensor Q))
  (density : Q) (m : string) (rescale : bool) :
  (1 <= density)%Q ->
  prune_each us i ts density m rescale = (repeat UserWarning (length ts), Ok ts).
Proof.
  intros H; revert i; induction ts as [|t ts IH]; intros i; [reflexivity|].
  cbn [prune_each]; rewrite (prune_no_pruning _ _ _ _ H); cbn [wbind].
  rewrite IH; cbn [wbind quiet length repeat app]; rewrite app_nil_r; reflexivity.
Qed.

Lemma prune_each_negative (us : nat -> nat -> Q) (i : nat) (ts : list (Tensor Q))
  (density : Q) (m : string) (rescale : bool) :
  (density < 0)%Q -> ts <> [] ->
  prune_each us i ts density m rescale = ([], Raise ValueError).
Proof.
  intros H Hne; destruct ts as [|t ts]; [contradiction|].
  cbn [prune_each]; rewrite (prune_negative _ _ _ _ H); reflexivity.
Qed.

(** X10: With a density of at least 1 no strategy prunes: [magnitude_prune] and
    [dare_linear] return what [task_arithmetic] returns, [dare_ties] returns
    what [ties] returns, and each of the four emits one warning per task
    tensor, before the result or the exception of the merge. *)
Theorem no_pruning_strategies (us : nat -> nat -> Q) (task_tensors : list (Tensor Q))
  (weights : Tensor Q) (density : Q) (m : string) :
  (1 <= density)%Q ->
  let warnings := repeat UserWarning (length task_tensors) in
  magnitude_prune us task_tensors weights density
    = (warnings, task_arithmetic task_tensors weights) /\
  dare_linear us task_tensors weights density
    = (warnings, task_arithmetic task_tensors weights) /\
  dare_ties us task_tensors weights density m = ties us task_tensors weights density m /\
  fst (ties us task_tensors weights density m) = warnings.
Proof.
  intros H warnings.
  unfold magnitude_prune, dare_linear, dare_ties, ties.
  rewrite !(prune_each_no_pruning _ _ _ _ _ H); cbn [wbind quiet].
  fold warnings; rewrite app_nil_r; repeat split.
Qed.

Lemma no_pruning_strategies_witness :
  let us := fun _ _ : nat => 0%Q in
  let task_tensors := [mkT [2] [1; -2]%Q; mkT [2] [3; 4]%Q] in
  let weights := mkT [2] [1; 1]%Q in
  let warnings := repeat UserWarning (length task_tensors) in
  magnitude_prune us task_tensors weights 1
    = (warnings, task_arithmetic task_tensors weights) /\
  dare_linear us task_tensors weights 1
    = (warnings, task_arithmetic task_tensors weights) /\
  dare_ties us task_tensors weights 1 "total" = ties us task_tensors weights 1 "total" /\
  fst (ties us task_tensors weights 1 "total") = warnings.
Proof.
  apply (@no_pruning_strategies (fun _ _ : nat => 0%Q)
           [mkT [2] [1; -2]%Q; mkT [2] [3; 4]%Q] (mkT [2] [1; 1]%Q) 1 "total").
  discriminate.
Defined.

(** X11: A negative density makes each of the four sparsifying strategies raise
    [ValueError] at the first task tensor, without a warning, whatever the
    weights and the sign method; but only when there is a task tensor: on an
    empty list the density is never looked at and the stacking raises
    instead. *)
Theorem negative_density_strategies (us : nat -> nat -> Q) (task_tensors : list (Tensor Q))
  (weights : Tensor Q) (density : Q) (m : string) :
  (density < 0)%Q ->
  (task_tensors <> [] ->
     magnitude_prune us task_tensors weights density = ([], Raise ValueError) /\
     ties us task_tensors weights density m = ([], Raise ValueError) /\
     dare_linear us task_tensors weights density = ([], Raise ValueError) /\
     dare_ties us task_tensors weights density m = ([], Raise ValueError)) /\
  magnitude_prune us [] weights density = ([], Raise RuntimeError) /\
  ties us [] weights density m = ([], Raise RuntimeError) /\
  dare_linear us [] weights density = ([], Raise RuntimeError) /\
  dare_ties us [] weights density m = ([], Raise RuntimeError).
Proof.
  intros H; split; [|repeat split].
  intros Hne; unfold magnitude_prune, ties, dare_linear, dare_ties.
  rewrite !(prune_each_negative _ _ _ _ H Hne); repeat split.
Qed.

Lemma negative_density_strategies_witness :
  let us := fun _ _ : nat => 0%Q in
  let weights := mkT [1] [1]%Q in
  (([mkT [2] [1; -2]%Q] : list (Tensor Q)) <> [] ->
     magnitude_prune us [mkT [2] [1; -2]%Q] weights (-1) = ([], Raise ValueError) /\
     ties us [mkT [2] [1; -2]%Q] weights (-1) "total" = ([], Raise ValueError) /\
     dare_linear us [mkT [2] [1; -2]%Q] weights (-1) = ([], Raise ValueError) /\
     dare_ties us [mkT [2] [1; -2]%Q] weights (-1) "total" = ([], Raise ValueError)) /\
  magnitude_prune us [] weights (-1) = ([], Raise RuntimeError) /\
  ties us [] weights (-1) "total" = ([], Raise RuntimeError) /\
  dare_linear us [] weights (-1) = ([], Raise RuntimeError) /\
  dare_ties us [] weights (-1) "total" = ([], Raise RuntimeError).
Proof.
  apply (@negative_density_strategies (fun _ _ : nat => 0%Q) [mkT [2] [1; -2]%Q]
           (mkT [1] [1]%Q) (-1) "total").
  reflexivity.
Defined.

(** X12: An empty list of task tensors makes every strategy raise, at any density
    and with any weights: nothing is pruned and the stacking fails. *)
Theorem empty_list_raises (us : nat -> nat -> Q) (weights : Tensor Q) (density : Q)
  (m : string) :
  task_arithmetic [] weights = Raise RuntimeError /\
  sce [] density m = Raise RuntimeError /\
  magnitude_prune us [] weights density = ([], Raise RuntimeError) /\
  ties us [] weights density m = ([], Raise RuntimeError) /\
  dare_linear us [] weights density = ([], Raise RuntimeError) /\
  dare_ties us [] weights density m = ([], Raise RuntimeError).
Proof.
  repeat split.
Qed.

Lemma majority_sign_mask_unknown_method (t : Tensor Q) (m : string) :
  m <> "total"%string -> m <> "frequency"%string ->
  calculate_majority_sign_mask t m = Raise RuntimeError.
Proof.
  intros H1 H2; unfold calculate_majority_sign_mask.
  apply String.eqb_neq in H1, H2; rewrite H1, H2; reflexivity.
Qed.

(** X13: A sign method other than "total" and "frequency" makes [ties],
    [dare_ties] and [sce] raise [RuntimeError] on stackable task tensors when
    nothing is pruned ([density >= 1]); the warnings of the pruning step have
    been emitted by then. *)
Theorem unknown_sign_method_raises (us : nat -> nat -> Q) (task_tensors : list (Tensor Q))
  (weights : Tensor Q) (density : Q) (m : string) (s : list nat) :
  task_tensors <> [] -> Forall (fun t => shape t = s) task_tensors ->
  (1 <= density)%Q ->
  m <> "total"%string -> m <> "frequency"%string ->
  ties us task_tensors weights density m
    = (repeat UserWarning (length task_tensors), Raise RuntimeError) /\
  dare_ties us task_tensors weights density m
    = (repeat UserWarning (length task_tensors), Raise RuntimeError) /\
  sce task_tensors density m = Raise RuntimeError.
Proof.
  intros Hne Hall H Hm1 Hm2.
  unfold ties, dare_ties, sce.
  rewrite !(prune_each_no_pruning _ _ _ _ _ H); cbn [wbind quiet].
  rewrite (stack_common_shape Hne Hall); cbn [bind].
  rewrite (Qltb_false_le H); cbn [bind].
  rewrite (majority_sign_mask_unknown_method _ Hm1 Hm2), app_nil_r; repeat split.
Qed.

Lemma unknown_sign_method_raises_witness :
  let us := fun _ _ : nat => 0%Q in
  let task_tensors := [mkT [2] [1; -2]%Q; mkT [2] [3; 4]%Q] in
  let weights := mkT [2] [1; 1]%Q in
  ties us task_tensors weights 1 "median"
    = (repeat UserWarning (length task_tensors), Raise RuntimeError) /\
  dare_ties us task_tensors weights 1 "median"
    = (repeat UserWarning (length task_tensors), Raise RuntimeError) /\
  sce task_tensors 1 "median" = Raise RuntimeError.
Proof.
  apply (@unknown_sign_method_raises (fun _ _ : nat => 0%Q)
           [mkT [2] [1; -2]%Q; mkT [2] [3; 4]%Q] (mkT [2] [1; 1]%Q) 1 "median" [2]);
    try discriminate.
  repeat constructor.
Defined.

(* ------------------------------------------------------------------ *)
(** ** What the sparsifying strategies compute *)

Lemma prune_result (u : nat -> Q) (t : Tensor Q) (density : Q) (m : string)
  (rescale : bool) :
  wf t -> (0 <= density)%Q ->
  m = "magnitude"%string \/ m = "random"%string ->
  exists ws r,
    prune u t density m rescale = (ws, Ok r) /\
    shape r = shape t /\ wf r /\
    forall i, i < numel t ->
      (nth i (data r) 0 == nth i (data t) 0)%Q \/ (nth i (data r) 0 == 0)%Q.
Proof.
  intros W H0 Hm; unfold prune.
  destruct (Qle_bool 1 density) eqn:E1.
  - exists [UserWarning], t; repeat split; auto; intros; left; reflexivity.
  - assert (H1 : (density <= 1)%Q).
    { destruct (Qlt_le_dec density 1) as [Hlt|Hle]; [apply Qlt_le_weak; assumption|].
      apply Qle_bool_iff in Hle; congruence. }
    rewrite (Qltb_false_le H0).
    destruct Hm as [-> | ->]; cbn [String.eqb Ascii.eqb Bool.eqb].
    + destruct (magnitude_based_pruning_elements W H0 H1)
        as (r & kept & E & Hs & Wr & _ & _ & _ & Hr).
      exists [], r; rewrite E; repeat split; auto.
      intros i Hi; rewrite Hr by assumption.
      destruct (mem i kept); [left|right]; ring.
    + destruct (random_pruning_elements u rescale W H0 H1) as (r & E & Hs & Wr & Hr).
      exists [], r; rewrite E; repeat split; auto.
      intros i Hi; rewrite Hr by assumption.
      destruct (Qltb (u i) density); [left|right]; simpl; ring.
Qed.

(** The sparsification of a list of task tensors of one shape: as many
    tensors of that shape, each element the original one or 0. *)
Lemma prune_each_result (us : nat -> nat -> Q) (i0 : nat) (ts : list (Tensor Q))
  (density : Q) (m : string) (rescale : bool) (s : list nat) :
  Forall (fun t => wf t /\ shape t = s) ts -> (0 <= density)%Q ->
  m = "magnitude"%string \/ m = "random"%string ->
  exists ws pruned,
    prune_each us i0 ts density m rescale = (ws, Ok pruned) /\
    length pruned = length ts /\
    Forall (fun t => wf t /\ shape t = s) pruned /\
    forall i p, i < length ts -> p < numel_of s ->
      (elem pruned i p == elem ts i p)%Q \/ (elem pruned i p == 0)%Q.
Proof.
  intros Hall H0 Hm; revert i0.
  induction Hall as [|t ts [W Hs] _ IH]; intros i0.
  - exists [], []; repeat split; auto; simpl; intros; lia.
  - destruct (prune_result (us i0) rescale W H0 Hm) as (w1 & r & E & Hr & Wr & Hel).
    destruct (IH (S i0)) as (w2 & pruned & E2 & Hl & Hp & Hel2).
    exists (w1 ++ w2 ++ []), (r :: pruned).
    cbn [prune_each]; rewrite E; cbn [wbind]; rewrite E2; cbn [wbind quiet].
    repeat split; simpl; auto.
    + constructor; auto; split; [assumption|congruence].
    + intros i p Hi Hpp; destruct i as [|i].
      * unfold elem; cbn [nth]; apply Hel; unfold numel; rewrite Hs; assumption.
      * unfold elem in *; cbn [nth]; apply Hel2; auto; lia.
Qed.

Lemma majority_sign_mask_elements (st : Tensor Q) n s (m : string) :
  wf st -> shape st = n :: s ->
  m = "total"%string \/ m = "frequency"%string ->
  exists mask,
    calculate_majority_sign_mask st m = Ok mask /\ shape mask = n :: s /\ wf mask /\
    forall i p, i < n -> p < numel_of s ->
      get false mask i p
        = Qeq_bool (Qsign (get 0%Q st i p))
            (where_nonneg
               (if (m =? "total")%string
                then task_sum n (fun j => get 0%Q st j p)
                else task_sum n (fun j => Qsign (get 0%Q st j p)))).
Proof.
  intros W Hs [-> | ->]; unfold calculate_majority_sign_mask;
    cbn [String.eqb Ascii.eqb Bool.eqb bind].
  - destruct (wf_sum_dim0 W Hs) as [Wm Hm].
    destruct (vote_mask W Hs Wm Hm) as (mask & E & Hsh & Wk & Hget).
    exists mask; repeat split; auto.
    intros i p Hi Hp; rewrite Hget, (nth_sum_dim0 W Hs Hp) by assumption; reflexivity.
  - assert (Ws : wf (tmap Qsign st)) by auto using wf_tmap.
    destruct (@wf_sum_dim0 (tmap Qsign st) n s Ws Hs) as [Wm Hm].
    destruct (vote_mask W Hs Wm Hm) as (mask & E & Hsh & Wk & Hget).
    exists mask; repeat split; auto.
    intros i p Hi Hp; rewrite Hget by assumption.
    rewrite (@nth_sum_dim0 (tmap Qsign st) n s) by assumption.
    rewrite (@task_sum_ext n (fun j => get 0%Q (tmap Qsign st) j p)
               (fun j => Qsign (get 0%Q st j p))); [reflexivity|].
    intros j Hj; apply (@get_tmap _ _ Qsign st 0%Q n s); assumption.
Qed.

(** The merge by sign consensus shared by [ties] and [dare_ties], on the
    sparsified task tensors. *)
Lemma consensus_merge_elements (pruned : list (Tensor Q)) (weights : Tensor Q)
  (s : list nat) (m : string) :
  pruned <> [] -> Forall (fun t => wf t /\ shape t = s) pruned ->
  wf weights -> shape weights = [length pruned] ->
  m = "total"%string \/ m = "frequency"%string ->
  exists r,
    (task_tensors <- stack pruned ;;
     majority_sign_mask <- calculate_majority_sign_mask task_tensors m ;;
     weights <- reshape_weight_task_tensors task_tensors weights ;;
     weighted_task_tensors <- bop Qmult task_tensors weights ;;
     let mixed_task_tensors := disjoint_merge weighted_task_tensors majority_sign_mask in
     mixed_task_tensors) = Ok r /\
    shape r = s /\ wf r /\
    forall p, p < numel_of s -> nth p (data r) 0%Q = consensus_mean m pruned weights p.
Proof.
  intros Hne Hall Ww Hw Hm.
  destruct (stack_elements Hne Hall) as (st & Est & Hst & Wst & Hget).
  destruct (majority_sign_mask_elements Wst Hst Hm) as (mask & Em & Hmk & Wmk & Hmask).
  destruct (weighted_stack Wst Hst Ww Hw) as (w' & wt & Ew & Eb & Hwt & Wwt & Hel).
  destruct (disjoint_merge_pointwise Wwt Wmk Hwt Hmk) as (r & Er & Hr & Wr & Hnth).
  rewrite Est; cbn [bind]; rewrite Em; cbn [bind]; rewrite Ew; cbn [bind].
  rewrite Eb; cbn [bind].
  exists r; repeat split; auto.
  intros p Hp; rewrite Hnth by assumption; unfold consensus_mean.
  assert (Hag : forall i, i < length pruned ->
                  get false mask i p = agrees m pruned i p).
  { intros i Hi; rewrite Hmask by assumption; unfold agrees, consensus.
    rewrite Hget by assumption; do 2 f_equal.
    destruct (m =? "total")%string; apply task_sum_ext; intros j Hj;
      rewrite Hget by assumption; reflexivity. }
  f_equal; [|f_equal]; apply task_sum_ext; intros i Hi;
    rewrite Hag by assumption; [|reflexivity].
  rewrite Hel, Hget by assumption; reflexivity.
Qed.

Lemma pruned_nonempty {A B} (ts : list A) (pruned : list B) :
  ts <> [] -> length pruned = length ts -> pruned <> [].
Proof.
  intros Hne Hl ->; destruct ts; [contradiction|discriminate].
Qed.

Lemma sparsify_then_sum (us : nat -> nat -> Q) (ts : list (Tensor Q)) (weights : Tensor Q)
  (density : Q) (pm : string) (rescale : bool) (s : list nat) :
  ts <> [] -> Forall (fun t => wf t /\ shape t = s) ts ->
  wf weights -> shape weights = [length ts] -> (0 <= density)%Q ->
  pm = "magnitude"%string \/ pm = "random"%string ->
  exists ws pruned r,
    prune_each us 0 ts density pm rescale = (ws, Ok pruned) /\
    wbind (prune_each us 0 ts density pm rescale)
      (fun tt => quiet (task_arithmetic tt weights)) = (ws, Ok r) /\
    shape r = s /\
    (forall i p, i < length ts -> p < numel_of s ->
       (elem pruned i p == elem ts i p)%Q \/ (elem pruned i p == 0)%Q) /\
    forall p, p < numel_of s -> nth p (data r) 0%Q = weighted_sum pruned weights p.
Proof.
  intros Hne Hall Ww Hw H0 Hpm.
  destruct (prune_each_result us 0 rescale Hall H0 Hpm) as (ws & pruned & E & Hl & Hp & Hel).
  rewrite <- Hl in Hw.
  destruct (task_arithmetic_elements (pruned_nonempty Hne Hl) Hp Ww Hw)
    as (r & Er & Hr & _ & Hnth).
  exists ws, pruned, r; rewrite E; cbn [wbind quiet]; rewrite Er, app_nil_r.
  repeat split; auto.
Qed.

(** X14: For a non-negative density, [magnitude_prune] and [dare_linear] return,
    with the warnings of the pruning step, a tensor of the shape of the task
    tensors that is at each position the weighted sum of the sparsified task
    tensors; these have each element of the task tensors either unchanged or
    replaced by 0, also under [dare_linear], whose kept values are not
    rescaled. *)
Theorem sparsified_weighted_sum (us : nat -> nat -> Q) (task_tensors : list (Tensor Q))
  (weights : Tensor Q) (density : Q) (s : list nat) :
  task_tensors <> [] -> Forall (fun t => wf t /\ shape t = s) task_tensors ->
  wf weights -> shape weights = [length task_tensors] -> (0 <= density)%Q ->
  (exists ws pruned r,
     prune_each us 0 task_tensors density "magnitude" false = (ws, Ok pruned) /\
     magnitude_prune us task_tensors weights density = (ws, Ok r) /\
     shape r = s /\
     (forall i p, i < length task_tensors -> p < numel_of s ->
        (elem pruned i p == elem task_tensors i p)%Q \/ (elem pruned i p == 0)%Q) /\
     forall p, p < numel_of s -> nth p (data r) 0%Q = weighted_sum pruned weights p) /\
  (exists ws pruned r,
     prune_each us 0 task_tensors density "random" true = (ws, Ok pruned) /\
     dare_linear us task_tensors weights density = (ws, Ok r) /\
     shape r = s /\
     (forall i p, i < length task_tensors -> p < numel_of s ->
        (elem pruned i p == elem task_tensors i p)%Q \/ (elem pruned i p == 0)%Q) /\
     forall p, p < numel_of s -> nth p (data r) 0%Q = weighted_sum pruned weights p).
Proof.
  intros Hne Hall Ww Hw H0; split.
  - apply (sparsify_then_sum us false Hne Hall Ww Hw H0); left; reflexivity.
  - apply (sparsify_then_sum us true Hne Hall Ww Hw H0); right; reflexivity.
Qed.

Lemma sparsified_weighted_sum_witness :
  let us := fun _ _ : nat => 0%Q in
  let task_tensors := [mkT [4] [1; 2; -3; 4]%Q; mkT [4] [1; -2; 3; -4]%Q] in
  let weights := mkT [2] [1 # 2; 1 # 2]%Q in
  let density := (1 # 2)%Q in
  let s := [4] in
  (exists ws pruned r,
     prune_each us 0 task_tensors density "magnitude" false = (ws, Ok pruned) /\
     magnitude_prune us task_tensors weights density = (ws, Ok r) /\
     shape r = s /\
     (forall i p, i < length task_tensors -> p < numel_of s ->
        (elem pruned i p == elem task_tensors i p)%Q \/ (elem pruned i p == 0)%Q) /\
     forall p, p < numel_of s -> nth p (data r) 0%Q = weighted_sum pruned weights p) /\
  (exists ws pruned r,
     prune_each us 0 task_tensors density "random" true = (ws, Ok pruned) /\
     dare_linear us task_tensors weights density = (ws, Ok r) /\
     shape r = s /\
     (forall i p, i < length task_tensors -> p < numel_of s ->
        (elem pruned i p == elem task_tensors i p)%Q \/ (elem pruned i p == 0)%Q) /\
     forall p, p < numel_of s -> nth p (data r) 0%Q = weighted_sum pruned weights p).
Proof.
  apply (@sparsified_weighted_sum (fun _ _ : nat => 0%Q)
           [mkT [4] [1; 2; -3; 4]%Q; mkT [4] [1; -2; 3; -4]%Q]
           (mkT [2] [1 # 2; 1 # 2]%Q) (1 # 2) [4]);
    try reflexivity; try discriminate.
  repeat constructor.
Defined.

Lemma sparsify_then_consensus (us : nat -> nat -> Q) (ts : list (Tensor Q))
  (weights : Tensor Q) (density : Q) (pm : string) (rescale : bool) (m : string)
  (s : list nat) :
  ts <> [] -> Forall (fun t => wf t /\ shape t = s) ts ->
  wf weights -> shape weights = [length ts] -> (0 <= density)%Q ->
  pm = "magnitude"%string \/ pm = "random"%string ->
  m = "total"%string \/ m = "frequency"%string ->
  exists ws pruned r,
    prune_each us 0 ts density pm rescale = (ws, Ok pruned) /\
    wbind (prune_each us 0 ts density pm rescale)
      (fun tt => quiet (
         task_tensors <- stack tt ;;
         majority_sign_mask <- calculate_majority_sign_mask task_tensors m ;;
         weights <- reshape_weight_task_tensors task_tensors weights ;;
         weighted_task_tensors <- bop Qmult task_tensors weights ;;
         let mixed_task_tensors :=
           disjoint_merge weighted_task_tensors majority_sign_mask in
         mixed_task_tensors)) = (ws, Ok r) /\
    shape r = s /\
    (forall i p, i < length ts -> p < numel_of s ->
       (elem pruned i p == elem ts i p)%Q \/ (elem pruned i p == 0)%Q) /\
    forall p, p < numel_of s -> nth p (data r) 0%Q = consensus_mean m pruned weights p.
Proof.
  intros Hne Hall Ww Hw H0 Hpm Hm.
  destruct (prune_each_result us 0 rescale Hall H0 Hpm) as (ws & pruned & E & Hl & Hp & Hel).
  rewrite <- Hl in Hw.
  destruct (consensus_merge_elements (pruned_nonempty Hne Hl) Hp Ww Hw Hm)
    as (r & Er & Hr & _ & Hnth).
  exists ws, pruned, r; rewrite E.
  cbv beta iota delta [wbind quiet]; rewrite Er, app_nil_r.
  repeat split; auto.
Qed.

(** X15: For a non-negative density and a known sign method, [ties] and
    [dare_ties] return, with the warnings of the pruning step, a tensor of
    the shape of the task tensors that is at each position the weighted sum
    of the sparsified task tensors agreeing with the majority sign there,
    divided by the number of agreeing tasks (by 1 when none agrees, which
    gives 0). *)
Theorem sparsified_consensus_mean (us : nat -> nat -> Q) (task_tensors : list (Tensor Q))
  (weights : Tensor Q) (density : Q) (m : string) (s : list nat) :
  task_tensors <> [] -> Forall (fun t => wf t /\ shape t = s) task_tensors ->
  wf weights -> shape weights = [length task_tensors] -> (0 <= density)%Q ->
  m = "total"%string \/ m = "frequency"%string ->
  (exists ws pruned r,
     prune_each us 0 task_tensors density "magnitude" false = (ws, Ok pruned) /\
     ties us task_tensors weights density m = (ws, Ok r) /\
     shape r = s /\
     (forall i p, i < length task_tensors -> p < numel_of s ->
        (elem pruned i p == elem task_tensors i p)%Q \/ (elem pruned i p == 0)%Q) /\
     forall p, p < numel_of s ->
       nth p (data r) 0%Q = consensus_mean m pruned weights p) /\
  (exists ws pruned r,
     prune_each us 0 task_tensors density "random" true = (ws, Ok pruned) /\
     dare_ties us task_tensors weights density m = (ws, Ok r) /\
     shape r = s /\
     (forall i p, i < length task_tensors -> p < numel_of s ->
        (elem pruned i p == elem task_tensors i p)%Q \/ (elem pruned i p == 0)%Q) /\
     forall p, p < numel_of s ->
       nth p (data r) 0%Q = consensus_mean m pruned weights p).
Proof.
  intros Hne Hall Ww Hw H0 Hm; split.
  - apply (sparsify_then_consensus us false Hne Hall Ww Hw H0); auto.
  - apply (sparsify_then_consensus us true Hne Hall Ww Hw H0); auto.
Qed.

Lemma sparsified_consensus_mean_witness :
  let us := fun _ _ : nat => 0%Q in
  let task_tensors := [mkT [4] [1; 2; -3; 4]%Q; mkT [4] [1; -2; 3; -4]%Q] in
  let weights := mkT [2] [1 # 2; 1 # 2]%Q in
  let density := (1 # 2)%Q in
  let m := "total"%string in
  let s := [4] in
  (exists ws pruned r,
     prune_each us 0 task_tensors density "magnitude" false = (ws, Ok pruned) /\
     ties us task_tensors weights density m = (ws, Ok r) /\
     shape r = s /\
     (forall i p, i < length task_tensors -> p < numel_of s ->
        (elem pruned i p == elem task_tensors i p)%Q \/ (elem pruned i p == 0)%Q) /\
     forall p, p < numel_of s ->
       nth p (data r) 0%Q = consensus_mean m pruned weights p) /\
  (exists ws pruned r,
     prune_each us 0 task_tensors density "random" true = (ws, Ok pruned) /\
     dare_ties us task_tensors weights density m = (ws, Ok r) /\
     shape r = s /\
     (forall i p, i < length task_tensors -> p < numel_of s ->
        (elem pruned i p == elem task_tensors i p)%Q \/ (elem pruned i p == 0)%Q) /\
     forall p, p < numel_of s ->
       nth p (data r) 0%Q = consensus_mean m pruned weights p).
Proof.
  apply (@sparsified_consensus_mean (fun _ _ : nat => 0%Q)
           [mkT [4] [1; 2; -3; 4]%Q; mkT [4] [1; -2; 3; -4]%Q]
           (mkT [2] [1 # 2; 1 # 2]%Q) (1 # 2) "total" [4]);
    try reflexivity; try discriminate.
  - repeat constructor.
  - left; reflexivity.
Defined.

(* ------------------------------------------------------------------ *)
(** ** The variance mask *)

Lemma wf_var_dim0 (st : Tensor Q) n s :
  wf st -> shape st = n :: s ->
  shape (var_dim0 st) = s /\ length (data (var_dim0 st)) = numel_of s.
Proof.
  intros W Hs; unfold var_dim0; rewrite Hs; cbn [shape data]; split; [reflexivity|].
  pose proof (chunks_all_length n (numel_of s) (data st) (wf_stacked W Hs)) as Hrows.
  rewrite length_map; apply sum_rows_length.
  apply Forall_map; eapply Forall_impl; [|exact Hrows].
  intros r Hr; cbv beta.
  rewrite zipWith_length, length_map, Hr, (sum_rows_length Hrows); lia.
Qed.

Lemma count_filter_index {A} (f : A -> bool) (l : list A) (d : A) (a : nat) :
  length (filter (fun p => f (nth (p - a) l d)) (seq a (length l)))
    = length (filter f l).
Proof.
  revert a; induction l as [|x l IH]; intros a; [reflexivity|].
  cbn [length seq filter]; rewrite Nat.sub_diag; cbn [nth].
  rewrite (filter_ext_in _ (fun p => f (nth (p - S a) l d))).
  - destruct (f x); simpl; rewrite IH; reflexivity.
  - intros p Hp; apply in_seq in Hp.
    replace (p - a) with (S (p - S a)) by lia; reflexivity.
Qed.

Lemma Qabs_le_zero (x y : Q) : (y == 0)%Q -> (Qabs x <= Qabs y)%Q -> (x == 0)%Q.
Proof.
  intros Hy H; rewrite Hy in H; change (Qabs 0) with 0%Q in H.
  apply Qabs_Qle_condition in H; destruct H as [H1 H2].
  apply Qle_antisym; assumption.
Qed.

Lemma nonzerob_false (x : Q) : nonzerob x = false <-> (x == 0)%Q.
Proof.
  unfold nonzerob; rewrite negb_false_iff; apply Qeq_bool_iff.
Qed.

(** A top-k selection of at most as many positions as there are non-zero
    values selects no position whose value is zero. *)
Lemma selection_nonzero (vd : list Q) (kept : list nat) :
  NoDup kept -> length kept <= length (filter nonzerob vd) ->
  (forall i, In i kept -> i < length vd) ->
  (forall i j, In i kept -> j < length vd -> ~ In j kept ->
     (Qabs (nth j vd 0) <= Qabs (nth i vd 0))%Q) ->
  forall i, In i kept -> ~ (nth i vd 0 == 0)%Q.
Proof.
  intros Hnd Hk Hrange Htop i Hi Hz.
  set (NZ := filter (fun p => nonzerob (nth (p - 0) vd 0%Q)) (seq 0 (length vd))).
  assert (Hlen : length NZ = length (filter nonzerob vd))
    by apply (count_filter_index nonzerob vd 0%Q 0).
  assert (Hincl : incl NZ (remove Nat.eq_dec i kept)).
  { intros p Hp; apply filter_In in Hp; destruct Hp as [Hp Hnz].
    apply in_seq in Hp; rewrite Nat.sub_0_r in Hnz.
    assert (Hne : p <> i).
    { intros ->; apply nonzerob_false in Hz; congruence. }
    apply in_in_remove; [assumption|].
    destruct (in_dec Nat.eq_dec p kept) as [Hin|Hnot]; [assumption|exfalso].
    assert (Hpz : (nth p vd 0 == 0)%Q)
      by (apply (@Qabs_le_zero _ _ Hz), Htop; auto; lia).
    apply nonzerob_false in Hpz; congruence. }
  assert (HndNZ : NoDup NZ) by (apply NoDup_filter, seq_NoDup).
  pose proof (NoDup_incl_length HndNZ Hincl) as Hle.
  pose proof (remove_length_lt Nat.eq_dec kept i Hi) as Hlt.
  lia.
Qed.

(** X16: For a density in (0,1) that selects at least one position, [sce_mask]
    returns a 0/1 mask of the shape of one task tensor with exactly [k] ones,
    [k] being the number of positions of non-zero variance times the density,
    truncated; the variance at a selected position is never zero and is in
    absolute value at least the variance at every position left out. *)
Theorem sce_mask_selection (st : Tensor Q) n s (density : Q) :
  wf st -> shape st = n :: s -> (0 < density)%Q -> (density < 1)%Q ->
  let var := var_dim0 st in
  let k := py_int (inject_Z (Z.of_nat (count_nonzero var)) * density) in
  k <> 0%Z ->
  exists mask kept,
    sce_mask st density = Ok mask /\ shape mask = s /\
    NoDup kept /\ Z.of_nat (length kept) = k /\
    (forall p, p < numel_of s ->
       nth p (data mask) 0%Q = if mem p kept then 1%Q else 0%Q) /\
    (forall i, In i kept -> i < numel_of s /\ ~ (nth i (data var) 0 == 0)%Q) /\
    (forall i j, In i kept -> j < numel_of s -> ~ In j kept ->
       (Qabs (nth j (data var) 0) <= Qabs (nth i (data var) 0))%Q).
Proof.
  intros W Hs H0 H1 var k Hk.
  destruct (wf_var_dim0 W Hs) as [Hvs Hvl]; fold var in Hvs, Hvl.
  pose proof (@sce_mask_count_bounds var density
                (Qlt_le_weak _ _ H0) (Qlt_le_weak _ _ H1)) as Hb; fold k in Hb.
  assert (Hkc : (k <= Z.of_nat (count_nonzero var))%Z).
  { unfold k.
    assert (Hc : (0 <= inject_Z (Z.of_nat (count_nonzero var)))%Q)
      by (change 0%Q with (inject_Z 0); rewrite <- Zle_Qle; lia).
    rewrite py_int_floor
      by (apply Qmult_le_0_compat; [assumption|apply Qlt_le_weak; assumption]).
    rewrite (Qfloor_comp _ _ (Qmult_comm _ _)).
    apply (keep_count_bounds (count_nonzero var)); apply Qlt_le_weak; assumption. }
  destruct (@topk_spec (map Qabs (data var)) (Z.to_nat k))
    as (kept & Etop & Hnd & Hkl & Hrange & Htop); [rewrite length_map; lia|].
  rewrite Z2Nat.id in Etop by lia; rewrite length_map in Hrange, Htop.
  assert (Htop' : forall i j, In i kept -> j < length (data var) -> ~ In j kept ->
                    (Qabs (nth j (data var) 0) <= Qabs (nth i (data var) 0))%Q).
  { intros i j Hi Hj Hnot.
    change 0%Q with (Qabs 0); rewrite <- !(map_nth Qabs); apply Htop; auto. }
  exists (mkT s (index_put kept 1%Q (repeat 0%Q (numel_of s)))), kept.
  repeat split; auto.
  - unfold sce_mask.
    assert (E0 : Qle_bool density 0 = false).
    { destruct (Qle_bool density 0) eqn:E; auto.
      apply Qle_bool_iff in E; exfalso; exact (Qlt_not_le _ _ H0 E). }
    assert (E1 : Qle_bool 1 density = false).
    { destruct (Qle_bool 1 density) eqn:E; auto.
      apply Qle_bool_iff in E; exfalso; exact (Qlt_not_le _ _ H1 E). }
    rewrite E0, E1; fold var; fold k.
    destruct (Z.eqb_spec k 0) as [|_]; [contradiction|].
    cbn [flatten tmap data]; rewrite Etop; cbn [bind snd].
    unfold zeros_like, full_like, numel; cbn [shape data]; rewrite Hvs; reflexivity.
  - rewrite Hkl; lia.
  - intros p Hp; cbn [data].
    rewrite nth_index_put by (intros i Hi; rewrite repeat_length, <- Hvl; auto).
    rewrite nth_repeat_lt by assumption; reflexivity.
  - rewrite <- Hvl; auto.
  - apply (@selection_nonzero (data var) kept Hnd); auto.
    fold (count_nonzero var); lia.
  - intros i j Hi Hj Hnot; apply Htop'; auto; rewrite Hvl; assumption.
Qed.

Lemma sce_mask_selection_witness :
  let st := mkT [2; 3] [1; 2; 3; 1; 4; 9]%Q in
  let density := (1 # 2)%Q in
  let var := var_dim0 st in
  let k := py_int (inject_Z (Z.of_nat (count_nonzero var)) * density) in
  exists mask kept,
    sce_mask st density = Ok mask /\ shape mask = [3] /\
    NoDup kept /\ Z.of_nat (length kept) = k /\
    (forall p, p < numel_of [3] ->
       nth p (data mask) 0%Q = if mem p kept then 1%Q else 0%Q) /\
    (forall i, In i kept -> i < numel_of [3] /\ ~ (nth i (data var) 0 == 0)%Q) /\
    (forall i j, In i kept -> j < numel_of [3] -> ~ In j kept ->
       (Qabs (nth j (data var) 0) <= Qabs (nth i (data var) 0))%Q).
Proof.
  apply (@sce_mask_selection (mkT [2; 3] [1; 2; 3; 1; 4; 9]%Q) 2 [3] (1 # 2));
    try reflexivity.
  vm_compute; discriminate.
Defined.

(* ------------------------------------------------------------------ *)
(** ** Energy weights are proportions *)







(* ------------------------------------------------------------------ *)
(** ** The disjoint merge as a quotient *)

(** X7: On a stacked tensor and a mask of its shape, [disjoint_merge] returns a
    tensor of the shape of one task which is at each position the sum of the
    elements whose mask is true, divided by the number of those elements, or
    by 1 when there is none. *)
Theorem disjoint_merge_quotient (w : Tensor Q) (mask : Tensor bool) n s :
  wf w -> wf mask -> shape w = n :: s -> shape mask = n :: s ->
  exists r,
    disjoint_merge w mask = Ok r /\ shape r = s /\ wf r /\
    forall p, p < numel_of s ->
      nth p (data r) 0%Q
        = (task_sum n (fun i => get 0 w i p * b2q (get false mask i p))
           / clamp1 (task_sum n (fun i => b2q (get false mask i p))))%Q.
Proof.
  intros Ww Wm Hw Hm; exact (disjoint_merge_pointwise Ww Wm Hw Hm).
Qed.

Lemma disjoint_merge_quotient_witness :
  let w := mkT [3; 2] [1; -1; 1; 1; -1; 1]%Q in
  let mask := mkT [3; 2] [true; false; true; false; true; false] in
  exists r,
    disjoint_merge w mask = Ok r /\ shape r = [2] /\ wf r /\
    forall p, p < numel_of [2] ->
      nth p (data r) 0%Q
        = (task_sum 3 (fun i => get 0 w i p * b2q (get false mask i p))
           / clamp1 (task_sum 3 (fun i => b2q (get false mask i p))))%Q.
Proof.
  apply (@disjoint_merge_quotient (mkT [3; 2] [1; -1; 1; 1; -1; 1]%Q)
           (mkT [3; 2] [true; false; true; false; true; false]) 3 [2]);
    reflexivity.
Defined.

(* ------------------------------------------------------------------ *)
(** ** Weights that do not match the tasks *)

Lemma broadcast_shapes_mismatch (n k : nat) (s : list nat) :
  k <> n -> k <> 1 -> n <> 1 ->
  broadcast_shapes (n :: s) (k :: repeat 1 (length s)) = None.
Proof.
  intros H1 H2 H3; unfold broadcast_shapes, pad_shape; cbn [length].
  rewrite repeat_length, Nat.max_id, Nat.sub_diag.
  cbn [repeat app broadcast_aligned]; rewrite broadcast_aligned_ones_r.
  destruct (Nat.eqb_spec n k); [congruence|].
  destruct (Nat.eqb_spec n 1); [congruence|].
  destruct (Nat.eqb_spec k 1); [congruence|reflexivity].
Qed.

(** X9: A weight vector whose length is neither the number of task tensors nor 1
    makes [task_arithmetic] raise when there are at least two task tensors of
    one shape: the weights cannot be broadcast against the stacked
    tensors. *)
Theorem task_arithmetic_weight_mismatch (task_tensors : list (Tensor Q))
  (weights : Tensor Q) (s : list nat) (k : nat) :
  Forall (fun t => shape t = s) task_tensors -> 1 < length task_tensors ->
  shape weights = [k] -> k <> length task_tensors -> k <> 1 ->
  task_arithmetic task_tensors weights = Raise RuntimeError.
Proof.
  intros Hall HN Hw Hk Hk1.
  assert (Hne : task_tensors <> []) by (intros ->; simpl in HN; lia).
  unfold task_arithmetic; rewrite (stack_common_shape Hne Hall); cbn [bind].
  unfold reshape_weight_task_tensors, view, numel, dim; cbn [shape length].
  rewrite Hw, numel_of_app_ones, Nat.eqb_refl; cbn [bind length app].
  replace (S (length s) - 1) with (length s) by lia.
  unfold bop; cbn [shape].
  rewrite broadcast_shapes_mismatch by (auto; lia); reflexivity.
Qed.

Lemma task_arithmetic_weight_mismatch_witness :
  task_arithmetic [mkT [2] [1; 2]%Q; mkT [2] [1; -2]%Q] (mkT [3] [1; 1; 1]%Q)
    = Raise RuntimeError.
Proof.
  apply (@task_arithmetic_weight_mismatch
           [mkT [2] [1; 2]%Q; mkT [2] [1; -2]%Q] (mkT [3] [1; 1; 1]%Q) [2] 3);
    try reflexivity; try (simpl; lia).
  repeat constructor.
Defined.

Lemma sce_density_mid_shape_witness :
  let task_tensors := [mkT [2] [1; 2]%Q; mkT [2] [3; 5]%Q] in
  let st := mkT (length task_tensors :: 2 :: []) (concat (map data task_tensors)) in
  let k := py_int (inject_Z (Z.of_nat (count_nonzero (var_dim0 st))) * (1 # 2)) in
  exists r,
    sce task_tensors (1 # 2) "total" = Ok r /\
    shape r = if (k =? 0)%Z then length task_tensors :: 2 :: [] else 2 :: [].
Proof.
  apply (@sce_density_mid_shape [mkT [2] [1; 2]%Q; mkT [2] [3; 5]%Q] 2 [] (1 # 2) "total").
  - discriminate.
  - repeat constructor.
  - reflexivity.
  - reflexivity.
  - left; reflexivity.
Defined.

(* ------------------------------------------------------------------ *)
(** ** What [sce] computes without sparsification *)

Lemma data_iter_unsqueeze_last {A} (j : nat) (t : Tensor A) :
  data (Nat.iter j unsqueeze_last t) = data t.
Proof.
  induction j as [|j IH]; simpl; auto.
Qed.

Lemma sce_weight_vector (t : Tensor Q) n d s :
  shape t = n :: d :: s ->
  exists w, sce_weight t = Ok w /\ shape w = [n] /\ length (data w) = n.
Proof.
  intros Hs; unfold sce_weight; rewrite (mean_tail_energies t Hs); cbn [shape data].
  assert (Hlen : length (task_energies t) = n).
  { unfold task_energies, rows; rewrite Hs, length_map; apply chunks_length. }
  destruct (Qltb _ eps); eexists; split; try reflexivity; split; try reflexivity.
  - unfold ones_like, full_like, numel; cbn [tmap shape data numel_of fold_right].
    rewrite length_map, repeat_length; lia.
  - cbn [tmap data]; rewrite length_map; assumption.
Qed.

(** One weight per task times a stacked tensor, the weights on the left. *)
Lemma bop_weights_left {B C} (f : Q -> B -> C) (w : Tensor Q) (b : Tensor B) n s :
  shape w = n :: repeat 1 (length s) -> length (data w) = n ->
  shape b = n :: s -> wf b ->
  bop f w b
    = Ok (mkT (n :: s)
            (zipWith f (concat (map (fun x => repeat x (numel_of s)) (data w))) (data b))).
Proof.
  intros Hw Hlw Hb Wb; unfold bop.
  rewrite Hw, Hb, broadcast_shapes_per_task.
  cbn [length]; unfold pad_shape; cbn [length]; rewrite repeat_length, Nat.sub_diag.
  cbn [repeat app].
  rewrite expand_per_task by assumption.
  rewrite expand_same by (apply (wf_stacked Wb Hb)); reflexivity.
Qed.

Lemma nth_clamp_min (lo : Q) (t : Tensor Q) (p : nat) :
  p < length (data t) ->
  nth p (data (clamp_min lo t)) 0%Q
    = (if Qltb (nth p (data t) 0%Q) lo then lo else nth p (data t) 0%Q).
Proof.
  intros Hp; unfold clamp_min, tmap; cbn [data].
  set (f := fun x : Q => if Qltb x lo then lo else x).
  rewrite (nth_indep _ 0%Q (f 0%Q)) by (rewrite length_map; assumption).
  rewrite (map_nth f); reflexivity.
Qed.

Lemma sce_merge_elements (ts : list (Tensor Q)) (d : nat) (s : list nat) (m : string) :
  ts <> [] -> Forall (fun t => wf t /\ shape t = d :: s) ts ->
  m = "total"%string \/ m = "frequency"%string ->
  exists st w r,
    stack ts = Ok st /\ sce_weight st = Ok w /\ length (data w) = length ts /\
    (erase_mask <- calculate_majority_sign_mask st m ;;
     tv_weights <- sce_weight st ;;
     let tv_weights := unsqueeze_to (dim st) tv_weights in
     erased_weights <- bop Qmult tv_weights (tmap b2q erase_mask) ;;
     weighted <- bop Qmult st erased_weights ;;
     let merged_tv := sum_dim0 weighted in
     let final_tv := bop Qdiv merged_tv (clamp_min eps (sum_dim0 erased_weights)) in
     final_tv) = Ok r /\
    shape r = d :: s /\
    forall p, p < numel_of (d :: s) -> nth p (data r) 0%Q = energy_mean m ts w p.
Proof.
  intros Hne Hall Hm.
  set (n := length ts); set (S := d :: s).
  destruct (stack_elements Hne Hall) as (st & Est & Hst & Wst & Hget).
  fold n in Hst, Hget; fold S in Hst, Hget.
  destruct (majority_sign_mask_elements Wst Hst Hm) as (mask & Em & Hmk & Wmk & Hmask).
  destruct (sce_weight_vector st Hst) as (w & Ew & Hw & Hlw).
  exists st, w.
  assert (Htv : shape (unsqueeze_to (dim st) w) = n :: repeat 1 (length S)).
  { rewrite shape_unsqueeze_to, Hw; unfold dim; rewrite Hst, Hw.
    cbn [length app]; do 2 f_equal; lia. }
  assert (Hdv : data (unsqueeze_to (dim st) w) = data w)
    by apply data_iter_unsqueeze_last.
  assert (Wb : wf (tmap b2q mask)) by auto using wf_tmap.
  pose proof (@bop_weights_left _ _ Qmult (unsqueeze_to (dim st) w) (tmap b2q mask) n S
                Htv (eq_trans (f_equal (@length Q) Hdv) Hlw) Hmk Wb) as Eer.
  rewrite Hdv in Eer.
  set (erased := mkT (n :: S)
                   (zipWith Qmult (concat (map (fun x => repeat x (numel_of S)) (data w)))
                      (data (tmap b2q mask)))) in *.
  assert (Wer : wf erased).
  { unfold wf, numel, erased; cbn [shape data tmap numel_of fold_right].
    rewrite zipWith_length, length_concat_blocks, length_map, Hlw, (wf_stacked Wmk Hmk).
    fold (numel_of S); lia. }
  assert (Her : forall i p, i < n -> p < numel_of S ->
                  get 0%Q erased i p
                    = (nth i (data w) 0 * b2q (get false mask i p))%Q).
  { intros i p Hi Hp; pose proof (flat_index_bound Hi Hp) as Hb.
    rewrite (@get_flat _ 0%Q erased n S), (@get_flat _ false mask n S); auto.
    unfold erased; cbn [data tmap].
    rewrite (nth_zipWith Qmult _ _ 0%Q (b2q false) 0%Q).
    - rewrite nth_concat_blocks, map_nth by lia; reflexivity.
    - rewrite length_concat_blocks; lia.
    - rewrite length_map, (wf_stacked Wmk Hmk); assumption. }
  assert (Ewt : bop Qmult st erased
                = Ok (mkT (n :: S) (zipWith Qmult (data st) (data erased)))).
  { rewrite bop_same_shape; auto; rewrite Hst; reflexivity. }
  set (weighted := mkT (n :: S) (zipWith Qmult (data st) (data erased))) in *.
  assert (Wwt : wf weighted) by (apply wf_zip; auto).
  destruct (@wf_sum_dim0 weighted n S Wwt eq_refl) as [Wnum Hnum].
  destruct (@wf_sum_dim0 erased n S Wer eq_refl) as [Wden Hden].
  assert (Wcl : wf (clamp_min eps (sum_dim0 erased))) by (apply wf_tmap; assumption).
  eexists; split; [exact Est|]; split; [exact Ew|]; split; [exact Hlw|].
  rewrite Em, Ew; cbn [bind]; rewrite Eer; cbn [bind]; rewrite Ewt; cbn [bind].
  rewrite bop_same_shape;
    [|cbn [clamp_min tmap shape]; congruence|assumption|assumption].
  rewrite Hnum; split; [reflexivity|]; split; [reflexivity|].
  intros p Hp; cbn [data].
  assert (Hln : length (data (sum_dim0 weighted)) = numel_of S)
    by (unfold wf, numel in Wnum; rewrite Hnum in Wnum; exact Wnum).
  assert (Hld : length (data (sum_dim0 erased)) = numel_of S)
    by (unfold wf, numel in Wden; rewrite Hden in Wden; exact Wden).
  rewrite (nth_zipWith Qdiv _ _ 0%Q 0%Q 0%Q);
    [|lia|cbn [clamp_min tmap data]; rewrite length_map; lia].
  rewrite nth_clamp_min by lia.
  rewrite (@nth_sum_dim0 weighted n S), (@nth_sum_dim0 erased n S) by auto.
  assert (Hag : forall i, i < n -> get false mask i p = agrees m ts i p).
  { intros i Hi; rewrite Hmask by assumption; unfold agrees, consensus.
    rewrite Hget by assumption; do 2 f_equal.
    destruct (m =? "total")%string; apply task_sum_ext; intros j Hj;
      rewrite Hget by assumption; reflexivity. }
  unfold energy_mean, clamp_eps; fold n.
  rewrite (@task_sum_ext n (fun i => get 0%Q erased i p)
             (fun i => (nth i (data w) 0 * b2q (agrees m ts i p))%Q))
    by (intros i Hi; rewrite Her, Hag by assumption; reflexivity).
  f_equal; apply task_sum_ext; intros i Hi.
  unfold weighted.
  rewrite (@get_zip _ _ _ Qmult st erased n S i p 0%Q 0%Q 0%Q); auto.
  rewrite Her, Hag, Hget by assumption; reflexivity.
Qed.

(** X19: With a density of at least 1 and a known sign method, [sce] on [N >= 1]
    task tensors of one shape (of rank at least 1) returns a tensor of that
    shape: at each position, the sum of the task elements that agree with the
    majority sign, each times the energy weight of its task, divided by the
    sum of the energy weights of the agreeing tasks (by [1e-6] if that sum is
    smaller). *)
Theorem sce_energy_mean (task_tensors : list (Tensor Q)) (d : nat) (s : list nat)
  (density : Q) (m : string) :
  task_tensors <> [] -> Forall (fun t => wf t /\ shape t = d :: s) task_tensors ->
  (1 <= density)%Q ->
  m = "total"%string \/ m = "frequency"%string ->
  exists st w r,
    stack task_tensors = Ok st /\ sce_weight st = Ok w /\
    length (data w) = length task_tensors /\
    sce task_tensors density m = Ok r /\ shape r = d :: s /\
    forall p, p < numel_of (d :: s) ->
      nth p (data r) 0%Q = energy_mean m task_tensors w p.
Proof.
  intros Hne Hall Hd Hm.
  destruct (sce_merge_elements Hne Hall Hm) as (st & w & r & Est & Ew & Hlw & E & Hr & Hnth).
  exists st, w, r; repeat split; auto.
  unfold sce; rewrite Est; cbn [bind].
  rewrite (Qltb_false_le Hd); cbn [bind]; exact E.
Qed.

Lemma sce_energy_mean_witness :
  let task_tensors := [mkT [2] [1; 2]%Q; mkT [2] [3; -4]%Q] in
  exists st w r,
    stack task_tensors = Ok st /\ sce_weight st = Ok w /\
    length (data w) = length task_tensors /\
    sce task_tensors 1 "total" = Ok r /\ shape r = [2] /\
    forall p, p < numel_of [2] ->
      nth p (data r) 0%Q = energy_mean "total" task_tensors w p.
Proof.
  apply (@sce_energy_mean [mkT [2] [1; 2]%Q; mkT [2] [3; -4]%Q] 2 [] 1 "total").
  - discriminate.
  - repeat constructor.
  - discriminate.
  - left; reflexivity.
Defined.

(* ------------------------------------------------------------------ *)
(** ** Magnitude pruning twice *)

Lemma mem_In (i : nat) (idx : list nat) : mem i idx = true -> In i idx.
Proof.
  unfold mem; intros H; apply existsb_exists in H.
  destruct H as (x & Hx & E); apply Nat.eqb_eq in E; subst; assumption.
Qed.

Lemma magnitude_based_pruning_full (t : Tensor Q) (density : Q) :
  wf t -> (0 <= density)%Q -> (density <= 1)%Q ->
  exists r kept,
    magnitude_based_pruning t density = Ok r /\
    shape r = shape t /\ wf r /\
    NoDup kept /\
    Z.of_nat (length kept) = Qfloor (density * inject_Z (Z.of_nat (numel t))) /\
    (forall i, In i kept -> i < numel t) /\
    (forall i, i < numel t ->
       nth i (data r) 0%Q = (nth i (data t) 0 * (if mem i kept then 1 else 0))%Q) /\
    (forall i j, In i kept -> j < numel t -> ~ In j kept ->
       (Qabs (nth j (data t) 0) <= Qabs (nth i (data t) 0))%Q).
Proof.
  intros W H0 H1.
  destruct (magnitude_based_pruning_kept W H0 H1)
    as (r & kept & E & Hs & Hd & Hnd & Hk & Hr & Htop).
  exists r, kept; repeat split; auto.
  - unfold wf, numel; rewrite Hd, Hs, zipWith_length, index_put_length, repeat_length.
    rewrite W; unfold numel; lia.
  - intros i Hi; rewrite Hd.
    rewrite (nth_zipWith Qmult _ _ 0%Q 0%Q 0%Q).
    + rewrite nth_index_put by (rewrite repeat_length; assumption).
      rewrite nth_repeat_lt by assumption; reflexivity.
    + rewrite W; assumption.
    + rewrite index_put_length, repeat_length; assumption.
Qed.

(** X5: [magnitude_based_pruning] is idempotent: pruning its result again at the
    same density returns that result, whichever way equal magnitudes are
    ordered. *)
Theorem magnitude_based_pruning_idempotent (t : Tensor Q) (density : Q) :
  wf t -> (0 <= density)%Q -> (density <= 1)%Q ->
  exists r r',
    magnitude_based_pruning t density = Ok r /\
    magnitude_based_pruning r density = Ok r' /\
    teq r' r.
Proof.
  intros W H0 H1.
  destruct (magnitude_based_pruning_full W H0 H1)
    as (r & K & E & Hs & Wr & HndK & HkK & _ & Hel & _).
  destruct (magnitude_based_pruning_full Wr H0 H1)
    as (r' & K' & E' & Hs' & Wr' & HndK' & HkK' & HrK' & Hel' & Htop').
  assert (HN : numel r = numel t) by (unfold numel; rewrite Hs; reflexivity).
  rewrite HN in HkK', HrK', Hel', Htop'.
  assert (Hlen : length K' = length K) by lia.
  exists r, r'; split; [assumption|]; split; [assumption|]; split; [assumption|].
  assert (Hlr : length (data r) = numel t) by (rewrite Wr; exact HN).
  assert (Hlr' : length (data r') = numel t)
    by (rewrite Wr'; unfold numel; rewrite Hs', Hs; reflexivity).
  apply Forall2_Qeq_nth; [congruence|].
  intros i Hi; rewrite Hlr' in Hi; rewrite Hel' by assumption.
  destruct (mem i K') eqn:EK'; [ring|].
  destruct (Qeq_dec (nth i (data r) 0%Q) 0%Q) as [Hz|Hnz]; [rewrite Hz; ring|exfalso].
  assert (HnotK' : ~ In i K') by (intros Hin; apply mem_true in Hin; congruence).
  assert (Hsupp : forall a, a < numel t -> ~ (nth a (data r) 0 == 0)%Q -> In a K).
  { intros a Ha Hna; apply mem_In.
    destruct (mem a K) eqn:EK; [reflexivity|exfalso].
    apply Hna; rewrite Hel, EK by assumption; ring. }
  assert (Hincl : incl (i :: K') K).
  { intros a [<-|Ha]; [apply Hsupp; assumption|].
    apply Hsupp; [apply HrK'; assumption|].
    intros Hza; apply Hnz, (@Qabs_le_zero _ _ Hza), Htop'; auto. }
  assert (Hnd : NoDup (i :: K')) by (constructor; assumption).
  pose proof (NoDup_incl_length Hnd Hincl) as Hle; simpl in Hle; lia.
Qed.

Lemma magnitude_based_pruning_idempotent_witness :
  exists r r',
    magnitude_based_pruning (mkT [4] [1; 2; -3; 4]%Q) (1 # 2) = Ok r /\
    magnitude_based_pruning r (1 # 2) = Ok r' /\
    teq r' r.
Proof.
  apply (@magnitude_based_pruning_idempotent (mkT [4] [1; 2; -3; 4]%Q) (1 # 2));
    [reflexivity | discriminate | discriminate].
Defined.

(* ------------------------------------------------------------------ *)
(** ** A density of zero erases everything *)

Lemma all_zero_firstn (n : nat) (l : list Q) : all_zero l -> all_zero (firstn n l).
Proof.
  unfold all_zero; intros H; revert n.
  induction H as [|x l Hx Hl IH]; intros [|n]; simpl; constructor; auto.
Qed.

Lemma all_zero_skipn (n : nat) (l : list Q) : all_zero l -> all_zero (skipn n l).
Proof.
  unfold all_zero; intros H; revert n.
  induction H as [|x l Hx Hl IH]; intros [|n]; simpl; auto.
Qed.

Lemma all_zero_chunks (n m : nat) (l : list Q) :
  all_zero l -> Forall all_zero (chunks n m l).
Proof.
  revert l; induction n as [|n IH]; intros l H; simpl; constructor.
  - apply all_zero_firstn; assumption.
  - apply IH, all_zero_skipn; assumption.
Qed.

Lemma all_zero_concat (rs : list (list Q)) : Forall all_zero rs -> all_zero (concat rs).
Proof.
  induction 1; simpl; [constructor|]; apply Forall_app; split; assumption.
Qed.

Lemma all_zero_expand (s r : list nat) (d : list Q) :
  all_zero d -> all_zero (expand s r d).
Proof.
  revert r d; induction s as [|a s IH]; intros [|b r] d H; simpl; auto.
  assert (Hparts : Forall all_zero (map (expand s r) (chunks a (numel_of s) d))).
  { apply Forall_map; eapply Forall_impl; [|apply all_zero_chunks; exact H].
    intros c Hc; apply IH; assumption. }
  destruct (a =? b); apply all_zero_concat; auto.
  apply Forall_forall; intros x Hx; apply repeat_spec in Hx; subst x.
  apply all_zero_concat; assumption.
Qed.

Lemma all_zero_zip_l (f : Q -> Q -> Q) (l1 l2 : list Q) :
  (forall x y, (x == 0)%Q -> (f x y == 0)%Q) ->
  all_zero l1 -> all_zero (zipWith f l1 l2).
Proof.
  unfold all_zero; intros Hf H; revert l2.
  induction H as [|x l1 Hx _ IH]; intros [|y l2]; simpl; try (constructor; fail).
  constructor; [apply Hf; assumption|apply IH].
Qed.

Lemma all_zero_zip_r (l1 l2 : list Q) : all_zero l2 -> all_zero (zipWith Qmult l1 l2).
Proof.
  unfold all_zero; intros H; revert l1.
  induction H as [|y l2 Hy _ IH]; intros [|x l1]; simpl; try (constructor; fail).
  constructor; [rewrite Hy; ring|apply IH].
Qed.

Lemma all_zero_zip_plus (l1 l2 : list Q) :
  all_zero l1 -> all_zero l2 -> all_zero (zipWith Qplus l1 l2).
Proof.
  unfold all_zero; intros H1; revert l2.
  induction H1 as [|x l1 Hx _ IH]; intros l2 H2; destruct H2 as [|y l2 Hy H2];
    simpl; try (constructor; fail).
  constructor; [rewrite Hx, Hy; reflexivity|apply IH; assumption].
Qed.

Lemma all_zero_sum_rows (m : nat) (rs : list (list Q)) :
  Forall all_zero rs -> all_zero (sum_rows m rs).
Proof.
  induction 1 as [|r rs Hr _ IH]; simpl.
  - apply Forall_forall; intros x Hx; apply repeat_spec in Hx; subst; reflexivity.
  - apply all_zero_zip_plus; assumption.
Qed.

Lemma all_zero_sum_dim0 (t : Tensor Q) n s :
  shape t = n :: s -> all_zero (data t) -> all_zero (data (sum_dim0 t)).
Proof.
  intros Hs H; unfold sum_dim0; rewrite Hs; cbn [data].
  apply all_zero_sum_rows, all_zero_chunks; assumption.
Qed.

Lemma bop_all_zero_l (f : Q -> Q -> Q) (a b r : Tensor Q) :
  (forall x y, (x == 0)%Q -> (f x y == 0)%Q) ->
  bop f a b = Ok r -> all_zero (data a) -> all_zero (data r).
Proof.
  intros Hf E H; unfold bop in E.
  destruct (broadcast_shapes (shape a) (shape b)); [|discriminate].
  injection E as <-; cbn [data].
  apply all_zero_zip_l; [assumption|apply all_zero_expand; assumption].
Qed.

Lemma bop_Qmult_all_zero_r (a b r : Tensor Q) :
  bop Qmult a b = Ok r -> all_zero (data b) -> all_zero (data r).
Proof.
  intros E H; unfold bop in E.
  destruct (broadcast_shapes (shape a) (shape b)); [|discriminate].
  injection E as <-; cbn [data].
  apply all_zero_zip_r, all_zero_expand; assumption.
Qed.

Lemma all_zero_sum_dim0_any (t : Tensor Q) :
  all_zero (data t) -> all_zero (data (sum_dim0 t)).
Proof.
  intros H; unfold sum_dim0; destruct (shape t) as [|n s] eqn:E; [assumption|].
  cbn [data]; apply all_zero_sum_rows, all_zero_chunks; assumption.
Qed.

Lemma bind_Ok {A B} (c : result A) (k : A -> result B) (r : B) :
  bind c k = Ok r -> exists a, c = Ok a /\ k a = Ok r.
Proof.
  destruct c as [a|e]; simpl; [eauto|discriminate].
Qed.

(** X20: For a non-empty list of task tensors of one shape and a density [<= 0],
    every element of the tensor [sce] returns is 0: the mask of zeros erases
    every task tensor before the merge. *)
Theorem sce_density_zero_erases (task_tensors : list (Tensor Q)) (S : list nat)
  (density : Q) (m : string) :
  task_tensors <> [] -> Forall (fun t => shape t = S) task_tensors ->
  (density <= 0)%Q ->
  m = "total"%string \/ m = "frequency"%string ->
  exists r, sce task_tensors density m = Ok r /\ all_zero (data r).
Proof.
  intros Hne Hall Hd Hm; unfold sce.
  rewrite (stack_common_shape Hne Hall); cbn [bind].
  set (st := mkT (length task_tensors :: S) (concat (map data task_tensors))).
  assert (Hlt : Qltb density 1 = true).
  { apply Qltb_lt, Qle_lt_trans with 0%Q; [assumption|reflexivity]. }
  rewrite Hlt; unfold sce_mask.
  apply Qle_bool_iff in Hd; rewrite Hd; cbn [bind].
  destruct (@bop_shape _ _ _ Qmult st (unsqueeze0 (zeros_like st))
              (1 :: length task_tensors :: S)) as (tt & Ett & Htt).
  { apply broadcast_shapes_unsqueezed. }
  assert (Ztt : all_zero (data tt)).
  { apply (bop_Qmult_all_zero_r _ _ Ett); cbn [unsqueeze0 zeros_like full_like data].
    apply Forall_forall; intros x Hx; apply repeat_spec in Hx; subst; reflexivity. }
  rewrite Ett; cbn [bind].
  destruct (sce_merge_shape tt Htt Hm) as (r & E & _).
  exists r; split; [exact E|].
  apply bind_Ok in E; destruct E as (mask & _ & E).
  apply bind_Ok in E; destruct E as (w & _ & E).
  cbv zeta in E.
  apply bind_Ok in E; destruct E as (erased & _ & E).
  apply bind_Ok in E; destruct E as (weighted & Ew & E).
  apply (@bop_all_zero_l Qdiv _ _ _ (fun x y Hx => ltac:(rewrite Hx; unfold Qdiv; ring)) E).
  apply all_zero_sum_dim0_any.
  apply (@bop_all_zero_l Qmult _ _ _ (fun x y Hx => ltac:(rewrite Hx; ring)) Ew Ztt).
Qed.

Lemma sce_density_zero_erases_witness :
  exists r, sce [mkT [2] [1; 2]%Q; mkT [2] [3; 4]%Q] 0 "frequency" = Ok r /\
            all_zero (data r).
Proof.
  apply (@sce_density_zero_erases [mkT [2] [1; 2]%Q; mkT [2] [3; 4]%Q] [2] 0 "frequency").
  - discriminate.
  - repeat constructor.
  - discriminate.
  - right; reflexivity.
Defined.
